(** * JobSystem: a bounded ring buffer of jobs, a worker pool and label counters

    A shallow embedding of [JobSystem.cpp] / [JobSystem.h].

    - [ThreadSafeRingBuffer] is the class template of the same name.  Its
      two member functions run entirely between [lock.lock()] and
      [lock.unlock()], so each call is one atomic transition of the queue
      and is embedded as a function on queue states.
    - [Module JobSystem] is the namespace of the same name: the globals,
      [Initialize], [Execute], [Dispatch], [IsBusy], [Wait] and the worker
      loop. The functions that loop on the shared queue or on the labels
      are embedded as the atomic steps of an interleaving semantics: the
      part of the function before its loop ([Execute_enter],
      [Dispatch_enter], [Wait_enter]), one turn of its loop
      ([caller_step]) and one turn of a worker ([worker_step]); a
      schedule is a list of [Event]s and [run] executes it.

    Integers are [Z]; [uint32_t] and [uint64_t] arithmetic is written
    with its wrap-around ([wrap32], [wrap64]).

    What the embedding leaves out: there is one submitting thread
    ([currentLabel] is not atomic in the source); a job is opaque and is
    seen only through the calls it makes when run, so a job that itself
    calls into the job system is not covered; a job runs in one step. *)

From stdpp Require Import base numbers list.
From Stdlib Require Import ZArith Lia.

Local Open Scope Z_scope.

(** ** ThreadSafeRingBuffer<T, capacity> *)

(** The data members [data], [head] and [tail]; the mutex carries no data
    and shows only as the atomicity of the two operations. Indices are
    [size_t]; they stay below [capacity], so no index computation of the
    class can leave the range of [size_t]. *)
Record ThreadSafeRingBuffer (T : Type) : Type := mkRingBuffer {
  data : list T;
  head : Z;
  tail : Z
}.
Arguments mkRingBuffer {T} _ _ _.
Arguments data {T} _.
Arguments head {T} _.
Arguments tail {T} _.

(** One call of a client of the queue. *)
Inductive QueueOp (T : Type) : Type :=
| Push (item : T)   (* push_back(item) *)
| Pop (item : T).   (* pop_front(item), [item] being the variable's value before *)
Arguments Push {T} _.
Arguments Pop {T} _.

Section RingBuffer.
Context {T : Type}.
Variable capacity : Z.

Abbreviation Buffer := (ThreadSafeRingBuffer T).

(** [T data[capacity]; size_t head = 0; size_t tail = 0;] where every
    slot starts as the default-constructed [T], here [dflt]. *)
Definition empty_buffer (dflt : T) : Buffer :=
  mkRingBuffer (replicate (Z.to_nat capacity) dflt) 0 0.

(** [bool push_back(const T& item)] : the result and the queue after. *)
Definition push_back (item : T) (q : Buffer) : bool * Buffer :=
  let next := (head q + 1) mod capacity in
  if negb (next =? tail q)
  then (true, mkRingBuffer (<[Z.to_nat (head q) := item]> (data q)) next (tail q))
  else (false, q).

(** [bool pop_front(T& item)] : the result, the value of the reference
    argument [item] after the call, and the queue after. The slot keeps
    its (copied-from) value. A read outside the array cannot happen in a
    well-formed queue; the model leaves [item] as it was there. *)
Definition pop_front (item : T) (q : Buffer) : bool * T * Buffer :=
  if negb (tail q =? head q)
  then (true,
        default item (data q !! Z.to_nat (tail q)),
        mkRingBuffer (data q) (head q) ((tail q + 1) mod capacity))
  else (false, item, q).

(** *** Specification-level notions *)

(** Both indices address a slot and the array has [capacity] slots. *)
Definition wf (q : Buffer) : Prop :=
  0 <= head q < capacity /\ 0 <= tail q < capacity /\
  length (data q) = Z.to_nat capacity.

(** Distance from [tail] forward to [head] around the ring. *)
Definition count (q : Buffer) : Z := (head q - tail q) mod capacity.

(** The slots read in the order [pop_front] would visit them. *)
Fixpoint resident (n : nat) (d : list T) (t : Z) : list T :=
  match n with
  | O => []
  | S n' =>
      match d !! Z.to_nat t with
      | Some x => x :: resident n' d ((t + 1) mod capacity)
      | None => []
      end
  end.

Definition contents (q : Buffer) : list T :=
  resident (Z.to_nat (count q)) (data q) (tail q).

(** A client history: the queue, the items whose [push_back] returned
    true (oldest first) and the items handed out by the calls of
    [pop_front] that returned true (oldest first). *)
Record History : Type := mkHistory {
  queue : Buffer;
  pushed : list T;
  popped : list T
}.

Definition apply_op (h : History) (o : QueueOp T) : History :=
  match o with
  | Push x =>
      let '(ok, q') := push_back x (queue h) in
      mkHistory q' (if ok then pushed h ++ [x] else pushed h) (popped h)
  | Pop x0 =>
      let '(ok, x, q') := pop_front x0 (queue h) in
      mkHistory q' (pushed h) (if ok then popped h ++ [x] else popped h)
  end.

Definition run_ops (dflt : T) (ops : list (QueueOp T)) : History :=
  fold_left apply_op ops (mkHistory (empty_buffer dflt) [] []).

(** Number of jobs pushed and not yet popped. *)
Definition in_flight (h : History) : Z :=
  Z.of_nat (length (pushed h)) - Z.of_nat (length (popped h)).

(** What every client history maintains: the queue is well formed and
    holds, oldest first, the pushed items not yet popped. *)
Definition history_inv (h : History) : Prop :=
  wf (queue h) /\ pushed h = popped h ++ contents (queue h).

End RingBuffer.

(** ** JobSystem.h *)

(** [struct JobDispatchArgs { uint32_t jobIndex; uint32_t groupIndex; }] *)
Record JobDispatchArgs : Type := mkArgs {
  jobIndex : Z;
  groupIndex : Z
}.

(** ** namespace JobSystem *)

Module JobSystem.

(** Unsigned arithmetic of [uint32_t] and [uint64_t]. *)
Definition wrap32 (z : Z) : Z := z mod 2 ^ 32.
Definition wrap64 (z : Z) : Z := z mod 2 ^ 64.
Definition is_uint32 (z : Z) : Prop := 0 <= z < 2 ^ 32.

(** The callables that live in the queue. User callables are opaque to
    the job system, so they are named by a tag; the lambda [jobGroup]
    of [Dispatch] is its capture list [jobCount, groupSize, job,
    groupIndex]. *)
Inductive Job : Type :=
| EmptyFunction                       (* a default-constructed std::function *)
| Closure (id : nat)                  (* a std::function<void()> given to Execute *)
| JobGroup (jobCount groupSize : Z) (job : nat) (groupIndex : Z).

(** What running a job does to the rest of the program: the calls it
    makes, in order. *)
Inductive Effect : Type :=
| Invoked (id : nat)                              (* job() *)
| InvokedRanged (job : nat) (args : JobDispatchArgs).  (* job(args) *)

(** [for (uint32_t i = groupJobOffset; i < groupJobEnd; ++i)
       { args.jobIndex = i; job(args); }]
    The recursion is on a bound of the number of iterations;
    [group_loop_exact] shows the bound given by [jobGroup_body] is
    never what stops the loop. *)
Fixpoint group_loop (bound : nat) (i groupJobEnd : Z) (job : nat) (gi : Z)
  : list Effect :=
  match bound with
  | O => []
  | S bound' =>
      if i <? groupJobEnd
      then InvokedRanged job (mkArgs i gi)
             :: group_loop bound' (wrap32 (i + 1)) groupJobEnd job gi
      else []
  end.

(** The body of the lambda [jobGroup]. *)
Definition jobGroup_body (jobCount groupSize : Z) (job : nat) (gi : Z)
  : list Effect :=
  let groupJobOffset := wrap32 (gi * groupSize) in
  let groupJobEnd := Z.min (wrap32 (groupJobOffset + groupSize)) jobCount in
  group_loop (Z.to_nat (groupJobEnd - groupJobOffset))
             groupJobOffset groupJobEnd job gi.

(** [job()] as called by a worker. Calling an empty [std::function]
    throws; no empty function is ever popped ([pop_front] hands out
    pushed items only), and the model gives it no effect. *)
Definition run_job (j : Job) : list Effect :=
  match j with
  | EmptyFunction => []
  | Closure id => [Invoked id]
  | JobGroup jc gs job gi => jobGroup_body jc gs job gi
  end.

(** Where the submitting thread stands. *)
Inductive Caller : Type :=
| Outside                              (* not inside a JobSystem function *)
| InExecute (job : Job)                (* Execute: label updated, in the push loop *)
| InDispatch (jobCount groupSize : Z) (job : nat) (groupCount groupIndex : Z)
                                       (* Dispatch: label updated, in the for loop *)
| InWait.                              (* Wait: in the while loop *)

(** Where a worker thread stands in its infinite loop, and its local
    variable [job]. *)
Inductive WorkerPc : Type :=
| AtPop          (* about to call jobPool.pop_front(job) *)
| Asleep         (* in wakeCondition.wait(lock) *)
| AtCall         (* about to call job() *)
| AtFetchAdd.    (* about to call finishedLabel.fetch_add(1) *)

Record Worker : Type := mkWorker {
  pc : WorkerPc;
  job_var : Job
}.

(** The namespace's globals, the threads, and the calls made by the jobs
    run so far. *)
Record State : Type := mkState {
  numThreads : Z;
  jobPool : ThreadSafeRingBuffer Job;
  currentLabel : Z;
  finishedLabel : Z;
  caller : Caller;
  workers : list Worker;
  effects : list Effect
}.

Definition jobPool_capacity : Z := 256.

Definition set_jobPool (q : ThreadSafeRingBuffer Job) (s : State) : State :=
  mkState (numThreads s) q (currentLabel s) (finishedLabel s)
          (caller s) (workers s) (effects s).
Definition set_currentLabel (v : Z) (s : State) : State :=
  mkState (numThreads s) (jobPool s) v (finishedLabel s)
          (caller s) (workers s) (effects s).
Definition set_finishedLabel (v : Z) (s : State) : State :=
  mkState (numThreads s) (jobPool s) (currentLabel s) v
          (caller s) (workers s) (effects s).
Definition set_caller (c : Caller) (s : State) : State :=
  mkState (numThreads s) (jobPool s) (currentLabel s) (finishedLabel s)
          c (workers s) (effects s).
Definition set_workers (ws : list Worker) (s : State) : State :=
  mkState (numThreads s) (jobPool s) (currentLabel s) (finishedLabel s)
          (caller s) ws (effects s).
Definition set_effects (es : list Effect) (s : State) : State :=
  mkState (numThreads s) (jobPool s) (currentLabel s) (finishedLabel s)
          (caller s) (workers s) es.

(** The state after static initialisation: the globals are zero, the
    queue is empty and no thread has been created. *)
Definition initial_state : State :=
  mkState 0 (empty_buffer jobPool_capacity EmptyFunction) 0 0 Outside [] [].

(** [Initialize()], given the value [std::thread::hardware_concurrency()]
    returns. Each new worker starts at the top of its loop with an empty
    [job]. *)
Definition Initialize (numCores : Z) (s : State) : State :=
  let s1 := set_finishedLabel 0 s in
  let n := Z.max 1 numCores in
  mkState n (jobPool s1) (currentLabel s1) (finishedLabel s1) (caller s1)
          (workers s1 ++ replicate (Z.to_nat n) (mkWorker AtPop EmptyFunction))
          (effects s1).

(** [wakeCondition.notify_one()]: one of the sleeping workers, if any,
    returns from [wait]. *)
Fixpoint wake_one (ws : list Worker) : list Worker :=
  match ws with
  | [] => []
  | w :: ws' =>
      match pc w with
      | Asleep => mkWorker AtPop (job_var w) :: ws'
      | _ => w :: wake_one ws'
      end
  end.

Definition notify_one (s : State) : State := set_workers (wake_one (workers s)) s.

(** [poll()]: [notify_one] and a yield. *)
Definition poll (s : State) : State := notify_one s.

(** [bool IsBusy()]: the result and the state after. *)
Definition IsBusy (s : State) : bool * State :=
  (finishedLabel s <? currentLabel s, s).

(** [(jobCount + groupSize - 1) / groupSize] in [uint32_t]. *)
Definition groupCount_of (jobCount groupSize : Z) : Z :=
  wrap32 (wrap32 (jobCount + groupSize) - 1) / groupSize.

(** [Execute(job)] up to the push loop. *)
Definition Execute_enter (job : Job) (s : State) : State :=
  set_caller (InExecute job) (set_currentLabel (wrap64 (currentLabel s + 1)) s).

(** [Dispatch(jobCount, groupSize, job)] up to the for loop. *)
Definition Dispatch_enter (jobCount groupSize : Z) (job : nat) (s : State) : State :=
  if (jobCount =? 0) || (groupSize =? 0) then s
  else
    let groupCount := groupCount_of jobCount groupSize in
    set_caller (InDispatch jobCount groupSize job groupCount 0)
               (set_currentLabel (wrap64 (currentLabel s + groupCount)) s).

(** [Wait()] up to its loop. *)
Definition Wait_enter (s : State) : State := set_caller InWait s.

(** One turn of the loop the submitting thread is in:
    - [while (!jobPool.push_back(job)) { poll(); }] then [notify_one]
      and return, in [Execute];
    - the test [groupIndex < groupCount], then one attempt of
      [push_back(jobGroup)], then [notify_one] and [++groupIndex], in
      [Dispatch];
    - [while (IsBusy()) { poll(); }] in [Wait]. *)
Definition caller_step (s : State) : State :=
  match caller s with
  | Outside => s
  | InExecute job =>
      let '(ok, q) := push_back jobPool_capacity job (jobPool s) in
      if ok then notify_one (set_caller Outside (set_jobPool q s))
      else poll s
  | InDispatch jc gs job gc gi =>
      if gi <? gc then
        let '(ok, q) := push_back jobPool_capacity (JobGroup jc gs job gi) (jobPool s) in
        if ok
        then notify_one (set_caller (InDispatch jc gs job gc (wrap32 (gi + 1)))
                                    (set_jobPool q s))
        else poll s
      else set_caller Outside s
  | InWait =>
      let '(busy, s1) := IsBusy s in
      if busy then poll s1 else set_caller Outside s1
  end.

(** One turn of worker [i]. A sleeping worker may wake at any time
    ([std::condition_variable::wait] may return spuriously). *)
Definition worker_step (i : nat) (s : State) : State :=
  match workers s !! i with
  | None => s
  | Some w =>
      match pc w with
      | AtPop =>
          let '(ok, item, q) := pop_front jobPool_capacity (job_var w) (jobPool s) in
          if ok
          then set_workers (<[i := mkWorker AtCall item]> (workers s)) (set_jobPool q s)
          else set_workers (<[i := mkWorker Asleep item]> (workers s)) s
      | Asleep =>
          set_workers (<[i := mkWorker AtPop (job_var w)]> (workers s)) s
      | AtCall =>
          set_workers (<[i := mkWorker AtFetchAdd (job_var w)]> (workers s))
                      (set_effects (effects s ++ run_job (job_var w)) s)
      | AtFetchAdd =>
          set_workers (<[i := mkWorker AtPop (job_var w)]> (workers s))
                      (set_finishedLabel (wrap64 (finishedLabel s + 1)) s)
      end
  end.

(** What the scheduler and the program of the submitting thread choose
    next. A call is possible only when the submitting thread is outside
    the job system. *)
Inductive Event : Type :=
| CallExecute (job : Job)
| CallDispatch (jobCount groupSize : Z) (job : nat)
| CallWait
| CallerStep
| WorkerStep (i : nat).

Definition step (s : State) (e : Event) : State :=
  match e with
  | CallExecute job =>
      match caller s with Outside => Execute_enter job s | _ => s end
  | CallDispatch jc gs job =>
      match caller s with Outside => Dispatch_enter jc gs job s | _ => s end
  | CallWait =>
      match caller s with Outside => Wait_enter s | _ => s end
  | CallerStep => caller_step s
  | WorkerStep i => worker_step i s
  end.

Definition run (evs : list Event) (s : State) : State := fold_left step evs s.

(** The arguments of [Dispatch] are [uint32_t]. *)
Definition valid_event (e : Event) : Prop :=
  match e with
  | CallDispatch jc gs _ => is_uint32 jc /\ is_uint32 gs
  | _ => True
  end.

End JobSystem.

Import JobSystem.

(** ** Specification-level notions for the job system *)

(** The closures a call of [Dispatch] still has to push. *)
Definition caller_jobs (c : Caller) : list Job :=
  match c with
  | Outside | InWait => []
  | InExecute job => [job]
  | InDispatch jc gs job gc gi => JobGroup jc gs job <$> seqZ gi (gc - gi)
  end.

(** The closures built by [Dispatch(jobCount, groupSize, job)], in the
    order of the loop. *)
Definition Dispatch_jobs (jobCount groupSize : Z) (job : nat) : list Job :=
  caller_jobs (caller (Dispatch_enter jobCount groupSize job initial_state)).

(** A worker that holds a popped job it has not yet accounted for. *)
Definition holds_job (w : Worker) : bool :=
  match pc w with AtCall | AtFetchAdd => true | _ => false end.

(** The number of such workers. *)
Definition busy_count (ws : list Worker) : Z :=
  Z.of_nat (length (filter (fun w => holds_job w = true) ws)).

(** Jobs counted in [currentLabel] and not yet in [finishedLabel]: those
    the submitting thread has still to push, those in the queue, and
    those held by workers. *)
Definition outstanding (s : State) : Z :=
  Z.of_nat (length (caller_jobs (caller s)))
  + Z.of_nat (length (contents jobPool_capacity (jobPool s)))
  + busy_count (workers s).

(** Nothing submitted is waiting to be pushed, queued, or running. *)
Definition idle (s : State) : Prop :=
  caller_jobs (caller s) = [] /\
  contents jobPool_capacity (jobPool s) = [] /\
  Forall (fun w => holds_job w = false) (workers s).

(** The loop counter of [Dispatch] and its bound are [uint32_t] values. *)
Definition caller_ok (c : Caller) : Prop :=
  match c with
  | InDispatch _ _ _ gc gi => 0 <= gi /\ gc < 2 ^ 32
  | _ => True
  end.

(** What every step maintains: the labels are 64-bit values, the queue
    is well formed, the loop counter of [Dispatch] is in range, and
    [currentLabel] is [finishedLabel] plus the outstanding jobs, in
    64-bit arithmetic. *)
Definition label_inv (s : State) : Prop :=
  0 <= currentLabel s < 2 ^ 64 /\
  0 <= finishedLabel s < 2 ^ 64 /\
  wf jobPool_capacity (jobPool s) /\
  caller_ok (caller s) /\
  currentLabel s = wrap64 (finishedLabel s + outstanding s).

(** Submit one job and let worker 0 pop it, run it and count it. *)
Definition submit_and_finish : list Event :=
  [CallExecute (Closure 0); CallerStep; WorkerStep 0; WorkerStep 0; WorkerStep 0].

(** Nothing outstanding, one worker at the top of its loop, and both
    labels equal to [n] in 64-bit arithmetic. *)
Definition at_rest (n : Z) (s : State) : Prop :=
  caller s = Outside /\
  (exists j, workers s = [mkWorker AtPop j]) /\
  head (jobPool s) = tail (jobPool s) /\
  wf jobPool_capacity (jobPool s) /\
  currentLabel s = wrap64 n /\
  finishedLabel s = wrap64 n.

(** The state in which the call of [Wait] that the submitting thread is
    in returns, if it does within the events [evs]. *)
Fixpoint Wait_returns (evs : list Event) (s : State) : option State :=
  match caller s with
  | InWait =>
      match evs with
      | [] => None
      | e :: evs' => Wait_returns evs' (step s e)
      end
  | _ => Some s
  end.

(** One job submitted and pushed, [Wait()] called, and the worker
    finishing the job while the submitting thread polls. *)
Definition waiting_start : State :=
  run [CallExecute (Closure 1); CallerStep] (Initialize 1 initial_state).
Definition waiting_events : list Event :=
  [CallerStep; WorkerStep 0; WorkerStep 0; CallerStep; WorkerStep 0; CallerStep].

(** A run with an [Execute] and a [Dispatch] under way: label 5
    submitted, 1 finished, 2 groups still to push, 1 queued, 1 held. *)
Definition sample_schedule : list Event :=
  [CallExecute (Closure 1); CallerStep; WorkerStep 0; CallDispatch 10 3 7;
   CallerStep; CallerStep; WorkerStep 1; WorkerStep 0; WorkerStep 0].

(** [2^64 - 1] jobs submitted and finished one after the other, then
    one more call of [Execute]. *)
Definition wrap_schedule : list Event :=
  mjoin (replicate (Z.to_nat (2 ^ 64 - 1)) submit_and_finish)
    ++ [CallExecute (Closure 0)].

(** ** What a schedule submits, hands to workers and runs *)

(** The jobs a call adds to what the submitting thread has to push: the
    argument of [Execute], the closures of [Dispatch]. A call made while
    the thread is inside another call does not happen. *)
Definition submitted_by (s : State) (e : Event) : list Job :=
  match caller s with
  | Outside =>
      match e with
      | CallExecute job => [job]
      | CallDispatch jc gs job => Dispatch_jobs jc gs job
      | _ => []
      end
  | _ => []
  end.

(** The job a turn of a worker takes out of the queue, if it takes one. *)
Definition taken_by (s : State) (e : Event) : list Job :=
  match e with
  | WorkerStep i =>
      match workers s !! i with
      | Some w =>
          match pc w with
          | AtPop =>
              let '(ok, item, _) :=
                pop_front jobPool_capacity (job_var w) (jobPool s) in
              if ok then [item] else []
          | _ => []
          end
      | None => []
      end
  | _ => []
  end.

(** The job a turn of a worker runs, if it runs one. *)
Definition ran_by (s : State) (e : Event) : list Job :=
  match e with
  | WorkerStep i =>
      match workers s !! i with
      | Some w => match pc w with AtCall => [job_var w] | _ => [] end
      | None => []
      end
  | _ => []
  end.

(** What the steps of a schedule do, in order, as seen by [f]. *)
Fixpoint observe (f : State -> Event -> list Job) (evs : list Event) (s : State)
  : list Job :=
  match evs with
  | [] => []
  | e :: evs' => f s e ++ observe f evs' (step s e)
  end.

(** The jobs that workers have taken and are about to run. *)
Definition at_call (w : Worker) : bool :=
  match pc w with AtCall => true | _ => false end.

Definition about_to_run (ws : list Worker) : list Job :=
  job_var <$> filter (fun w => at_call w = true) ws.

(** A callable that can be called: not an empty [std::function]. *)
Definition callable (j : Job) : Prop := j <> EmptyFunction.

(** A call of [Execute] with a callable job; any other event. *)
Definition callable_event (e : Event) : Prop :=
  match e with
  | CallExecute job => callable job
  | _ => True
  end.

(** A turn of a thread, as opposed to a new call. *)
Definition is_turn (e : Event) : Prop :=
  match e with
  | CallerStep | WorkerStep _ => True
  | _ => False
  end.

(** No job is queued, waiting to be pushed or held by a worker that has
    yet to call it, unless it is callable. *)
Definition all_callable (s : State) : Prop :=
  Forall callable (contents jobPool_capacity (jobPool s)) /\
  Forall callable (caller_jobs (caller s)) /\
  Forall (fun w => at_call w = true -> callable (job_var w)) (workers s).

(** * Facts about the ring buffer *)

Section RingBufferFacts.
Context {T : Type}.
Variable capacity : Z.
Hypothesis capacity_pos : 0 < capacity.

Implicit Types (q : ThreadSafeRingBuffer T) (x item : T) (d : list T).

Lemma next_index (a : Z) :
  0 <= a < capacity ->
  (a + 1) mod capacity = if decide (a + 1 = capacity) then 0 else a + 1.
Proof using capacity_pos.
  intros Ha. destruct (decide (a + 1 = capacity)) as [->|Hne].
  - apply Z_mod_same_full.
  - apply Z.mod_small. lia.
Qed.

Lemma ring_distance (h t : Z) :
  0 <= h < capacity -> 0 <= t < capacity ->
  (h - t) mod capacity = if decide (t <= h) then h - t else h - t + capacity.
Proof using capacity_pos.
  intros Hh Ht. destruct (decide (t <= h)).
  - apply Z.mod_small. lia.
  - symmetry. apply (Z.mod_unique_pos _ _ (-1)); lia.
Qed.

Lemma next_index_range (a : Z) :
  0 <= a < capacity -> 0 <= (a + 1) mod capacity < capacity.
Proof using capacity_pos. intros _. apply Z.mod_pos_bound. lia. Qed.

Lemma count_range q : 0 <= count capacity q < capacity.
Proof using capacity_pos. apply Z.mod_pos_bound. lia. Qed.

Lemma wf_empty_buffer (dflt : T) : wf capacity (empty_buffer capacity dflt).
Proof using capacity_pos.
  unfold wf, empty_buffer; simpl. rewrite length_replicate. lia.
Qed.

Lemma wf_push_back item q :
  wf capacity q -> wf capacity (push_back capacity item q).2.
Proof using capacity_pos.
  intros (Hh & Ht & Hlen). unfold push_back.
  destruct (negb _); simpl; [|done].
  unfold wf; simpl. rewrite length_insert.
  split_and!; try lia; apply Z.mod_pos_bound; lia.
Qed.

Lemma wf_pop_front item q :
  wf capacity q -> wf capacity (pop_front capacity item q).2.
Proof using capacity_pos.
  intros (Hh & Ht & Hlen). unfold pop_front.
  destruct (negb _); simpl; [|done].
  unfold wf; simpl.
  split_and!; try lia; apply Z.mod_pos_bound; lia.
Qed.

(** Writing a slot that is not among the next [n] to be read leaves
    what will be read unchanged. *)
Lemma resident_insert_outside (n : nat) d (t h : Z) x :
  0 <= t < capacity -> 0 <= h < capacity ->
  Z.of_nat n <= (h - t) mod capacity ->
  resident capacity n (<[Z.to_nat h := x]> d) t = resident capacity n d t.
Proof using capacity_pos.
  revert t. induction n as [|n IH]; intros t Ht Hh Hn; [done|].
  simpl. rewrite ring_distance in Hn by done.
  assert (t <> h) by (intros ->; destruct (decide (h <= h)); lia).
  rewrite list_lookup_insert_ne by lia.
  destruct (d !! Z.to_nat t); [|done]. f_equal.
  apply IH; [by apply next_index_range|done|].
  rewrite ring_distance by (by try apply next_index_range).
  rewrite next_index by done.
  repeat case_decide; lia.
Qed.

(** Reading one slot further appends the item stored there. *)
Lemma resident_snoc (n : nat) d (t h : Z) x :
  0 <= t < capacity -> 0 <= h < capacity ->
  length d = Z.to_nat capacity ->
  Z.of_nat n = (h - t) mod capacity ->
  resident capacity (S n) (<[Z.to_nat h := x]> d) t = resident capacity n d t ++ [x].
Proof using capacity_pos.
  revert t. induction n as [|n IH]; intros t Ht Hh Hlen Hn.
  - rewrite ring_distance in Hn by done.
    assert (t = h) as -> by (case_decide; lia).
    simpl. rewrite list_lookup_insert_eq by lia. done.
  - rewrite ring_distance in Hn by done.
    assert (t <> h) by (intros ->; destruct (decide (h <= h)); lia).
    change (resident capacity (S (S n)) (<[Z.to_nat h:=x]> d) t)
      with (match <[Z.to_nat h:=x]> d !! Z.to_nat t with
            | Some y => y :: resident capacity (S n) (<[Z.to_nat h:=x]> d)
                                      ((t + 1) mod capacity)
            | None => []
            end).
    rewrite list_lookup_insert_ne by lia.
    destruct (lookup_lt_is_Some_2 d (Z.to_nat t)) as [y Hy]; [lia|].
    simpl. rewrite Hy. simpl. f_equal.
    apply IH; [by apply next_index_range|done..|].
    rewrite ring_distance by (by try apply next_index_range).
    rewrite next_index by done.
    repeat case_decide; lia.
Qed.

Lemma length_resident (n : nat) d (t : Z) :
  0 <= t < capacity -> length d = Z.to_nat capacity ->
  length (resident capacity n d t) = n.
Proof using capacity_pos.
  revert t. induction n as [|n IH]; intros t Ht Hlen; [done|].
  simpl. destruct (lookup_lt_is_Some_2 d (Z.to_nat t)) as [y Hy]; [lia|].
  rewrite Hy. simpl. f_equal. apply IH; [by apply next_index_range|done].
Qed.

Lemma length_contents q :
  wf capacity q -> Z.of_nat (length (contents capacity q)) = count capacity q.
Proof using capacity_pos.
  intros (Hh & Ht & Hlen). unfold contents.
  rewrite length_resident by done.
  pose proof (count_range q). lia.
Qed.

Lemma contents_empty_buffer (dflt : T) :
  contents capacity (empty_buffer capacity dflt) = [].
Proof using capacity_pos.
  unfold contents, count, empty_buffer; cbn [head tail data].
  rewrite Z.sub_diag, Z.mod_0_l by lia. done.
Qed.

(** The queue is full exactly when it holds [capacity - 1] items. *)
Lemma full_iff_count q :
  wf capacity q ->
  (head q + 1) mod capacity = tail q <-> count capacity q = capacity - 1.
Proof using capacity_pos.
  intros (Hh & Ht & _). unfold count.
  rewrite ring_distance, next_index by done.
  repeat case_decide; lia.
Qed.

Lemma empty_iff_count q :
  wf capacity q -> head q = tail q <-> count capacity q = 0.
Proof using capacity_pos.
  intros (Hh & Ht & _). unfold count.
  rewrite ring_distance by done. case_decide; lia.
Qed.

Lemma push_back_true item q :
  (head q + 1) mod capacity <> tail q ->
  push_back capacity item q =
    (true, mkRingBuffer (<[Z.to_nat (head q) := item]> (data q))
                        ((head q + 1) mod capacity) (tail q)).
Proof using Type.
  intros Hne. unfold push_back.
  destruct (Z.eqb_spec ((head q + 1) mod capacity) (tail q)); [done|done].
Qed.

Lemma push_back_false item q :
  (head q + 1) mod capacity = tail q -> push_back capacity item q = (false, q).
Proof using Type. intros Heq. unfold push_back. rewrite Heq, Z.eqb_refl. done. Qed.

Lemma pop_front_true item q :
  tail q <> head q ->
  pop_front capacity item q =
    (true, default item (data q !! Z.to_nat (tail q)),
     mkRingBuffer (data q) (head q) ((tail q + 1) mod capacity)).
Proof using Type.
  intros Hne. unfold pop_front.
  destruct (Z.eqb_spec (tail q) (head q)); [done|done].
Qed.

Lemma pop_front_false item q :
  tail q = head q -> pop_front capacity item q = (false, item, q).
Proof using Type. intros Heq. unfold pop_front. rewrite Heq, Z.eqb_refl. done. Qed.

(** A successful push appends to the logical contents. *)
Lemma contents_push_back item q :
  wf capacity q -> (head q + 1) mod capacity <> tail q ->
  contents capacity (push_back capacity item q).2 = contents capacity q ++ [item].
Proof using capacity_pos.
  intros Hwf Hne. destruct Hwf as (Hh & Ht & Hlen).
  rewrite push_back_true by done. unfold contents, count; simpl.
  assert (Z.to_nat ((((head q + 1) mod capacity) - tail q) mod capacity)
          = S (Z.to_nat ((head q - tail q) mod capacity))) as ->.
  { rewrite next_index in Hne |- * by done.
    rewrite !ring_distance by (repeat case_decide; lia).
    repeat case_decide; lia. }
  apply resident_snoc; try done.
  pose proof (Z.mod_pos_bound (head q - tail q) capacity). lia.
Qed.

(** A successful pop hands out the first of the logical contents and
    leaves the rest. *)
Lemma contents_pop_front item q :
  wf capacity q -> tail q <> head q ->
  contents capacity q =
    (pop_front capacity item q).1.2 :: contents capacity (pop_front capacity item q).2.
Proof using capacity_pos.
  intros (Hh & Ht & Hlen) Hne.
  rewrite pop_front_true by done. unfold contents, count; simpl.
  assert (Z.to_nat ((head q - tail q) mod capacity)
          = S (Z.to_nat ((head q - (tail q + 1) mod capacity) mod capacity))) as ->.
  { rewrite next_index by done.
    rewrite !ring_distance by (repeat case_decide; lia).
    repeat case_decide; lia. }
  simpl. destruct (lookup_lt_is_Some_2 (data q) (Z.to_nat (tail q))) as [y Hy]; [lia|].
  rewrite Hy. done.
Qed.

End RingBufferFacts.

Section RingBufferHistory.
Context {T : Type}.
Variable capacity : Z.
Hypothesis capacity_pos : 0 < capacity.

Implicit Types (q : ThreadSafeRingBuffer T) (x item : T) (h : History (T:=T)).

Lemma history_inv_apply_op h (o : QueueOp T) :
  history_inv capacity h -> history_inv capacity (apply_op capacity h o).
Proof using capacity_pos.
  intros [Hwf Hlog]. destruct o as [x|x0]; unfold apply_op.
  - destruct (decide ((head (queue h) + 1) mod capacity = tail (queue h))) as [Hfull|Hroom].
    + rewrite push_back_false by done. by split.
    + pose proof (wf_push_back capacity capacity_pos x _ Hwf) as Hwf'.
      pose proof (contents_push_back capacity capacity_pos x _ Hwf Hroom) as Hc.
      rewrite push_back_true in Hwf', Hc |- * by done.
      split; simpl in *; [done|]. rewrite Hc, Hlog, app_assoc. done.
  - destruct (decide (tail (queue h) = head (queue h))) as [Hempty|Hsome].
    + rewrite pop_front_false by done. by split.
    + pose proof (wf_pop_front capacity capacity_pos x0 _ Hwf) as Hwf'.
      pose proof (contents_pop_front capacity capacity_pos x0 _ Hwf Hsome) as Hc.
      rewrite pop_front_true in Hwf', Hc |- * by done.
      split; simpl in *; [done|]. rewrite Hlog, Hc, <- app_assoc. done.
Qed.

Lemma history_inv_fold (ops : list (QueueOp T)) h :
  history_inv capacity h -> history_inv capacity (fold_left (apply_op capacity) ops h).
Proof using capacity_pos.
  revert h. induction ops as [|o ops IH]; intros h Hh; [done|].
  simpl. apply IH, history_inv_apply_op, Hh.
Qed.

Lemma history_inv_run_ops (dflt : T) (ops : list (QueueOp T)) :
  history_inv capacity (run_ops capacity dflt ops).
Proof using capacity_pos.
  apply history_inv_fold. split; simpl.
  - by apply wf_empty_buffer.
  - by rewrite contents_empty_buffer.
Qed.

Lemma in_flight_count h :
  history_inv capacity h -> in_flight h = count capacity (queue h).
Proof using capacity_pos.
  intros [Hwf Hlog]. unfold in_flight.
  rewrite Hlog, length_app, <- (length_contents capacity capacity_pos _ Hwf). lia.
Qed.

(** C2. For a queue in any state, [push_back] returns true exactly when
    [(head + 1) mod capacity] differs from [tail]; it then stores the
    item in slot [head], advances [head] and keeps [tail], and, the
    queue being well formed, the item becomes the newest of the queued
    items. When it returns false the queue (head, tail and storage) is
    the one it was given. *)
Theorem push_back_spec item q :
  let r := push_back capacity item q in
  (r.1 = true <-> (head q + 1) mod capacity <> tail q) /\
  (r.1 = true ->
     data r.2 = <[Z.to_nat (head q) := item]> (data q) /\
     head r.2 = (head q + 1) mod capacity /\
     tail r.2 = tail q /\
     (wf capacity q ->
        wf capacity r.2 /\
        contents capacity r.2 = contents capacity q ++ [item])) /\
  (r.1 = false -> r.2 = q /\ contents capacity r.2 = contents capacity q).
Proof using Type.
  clear capacity_pos. intros r. subst r.
  destruct (decide ((head q + 1) mod capacity = tail q)) as [Hfull|Hroom].
  - rewrite push_back_false by done. simpl. split_and!; done.
  - rewrite push_back_true by done. simpl.
    split_and!; try done. intros _. split_and!; try done.
    intros Hwf.
    assert (0 < capacity) as Hpos by (destruct Hwf as [? _]; lia).
    pose proof (wf_push_back capacity Hpos item q Hwf) as Hwf'.
    pose proof (contents_push_back capacity Hpos item q Hwf Hroom) as Hc.
    rewrite push_back_true in Hwf', Hc by done. done.
Qed.

(** C3. After any sequence of [push_back] and [pop_front] calls on the
    initially empty queue, the number of items pushed and not yet
    popped is at most [capacity - 1]; it is zero exactly when
    [head = tail], it is [capacity - 1] exactly when
    [(head + 1) mod capacity = tail], and [push_back] fails exactly in
    that last case. *)
Theorem ring_buffer_bounded (dflt : T) (ops : list (QueueOp T)) :
  let h := run_ops capacity dflt ops in
  0 <= in_flight h <= capacity - 1 /\
  (in_flight h = 0 <-> head (queue h) = tail (queue h)) /\
  (in_flight h = capacity - 1 <-> (head (queue h) + 1) mod capacity = tail (queue h)) /\
  (forall x, (push_back capacity x (queue h)).1 = false <-> in_flight h = capacity - 1).
Proof using capacity_pos.
  intros h.
  pose proof (history_inv_run_ops dflt ops) as Hinv. fold h in Hinv.
  pose proof (in_flight_count h Hinv) as Hn. destruct Hinv as [Hwf _].
  pose proof (count_range capacity capacity_pos (queue h)) as Hr.
  pose proof (full_iff_count capacity capacity_pos _ Hwf) as Hfull.
  pose proof (empty_iff_count capacity capacity_pos _ Hwf) as Hempty.
  rewrite Hn. split_and!; [lia|lia|by symmetry|by symmetry|].
  intros x. rewrite <- Hfull.
  destruct (decide ((head (queue h) + 1) mod capacity = tail (queue h))) as [Hf|Hr'].
  - rewrite push_back_false by done. done.
  - rewrite push_back_true by done. simpl. split; [done|]. intros ?; done.
Qed.

(** C4. After any sequence of [push_back] and [pop_front] calls on the
    initially empty queue, the items handed out so far are a prefix of
    the items pushed so far, in the same order; if some pushed item is
    not yet popped, [pop_front] returns true, hands out the oldest of
    them and leaves the others queued in order; otherwise [head = tail]
    and [pop_front] returns false and changes neither its argument nor
    the queue. *)
Theorem ring_buffer_fifo (dflt : T) (ops : list (QueueOp T)) item :
  let h := run_ops capacity dflt ops in
  let r := pop_front capacity item (queue h) in
  popped h = take (length (popped h)) (pushed h) /\
  (head (queue h) = tail (queue h) <-> drop (length (popped h)) (pushed h) = []) /\
  match drop (length (popped h)) (pushed h) with
  | oldest :: others =>
      r.1.1 = true /\ r.1.2 = oldest /\
      popped (apply_op capacity h (Pop item)) = popped h ++ [oldest] /\
      drop (length (popped h) + 1) (pushed h) = others /\
      contents capacity r.2 = others
  | [] => r = (false, item, queue h)
  end.
Proof using capacity_pos.
  intros h r.
  pose proof (history_inv_run_ops dflt ops) as Hinv. fold h in Hinv.
  pose proof (in_flight_count h Hinv) as Hn. destruct Hinv as [Hwf Hlog].
  pose proof (empty_iff_count capacity capacity_pos _ Hwf) as Hempty.
  pose proof (length_contents capacity capacity_pos _ Hwf) as Hlen.
  assert (drop (length (popped h)) (pushed h) = contents capacity (queue h)) as Hdrop.
  { rewrite Hlog, drop_app_length. done. }
  split_and!.
  - by rewrite Hlog, take_app_length.
  - rewrite Hdrop, Hempty, <- Hlen. destruct (contents _ _); simpl; [done|]. split; [lia|done].
  - assert (drop (length (popped h) + 1) (pushed h)
            = drop 1 (contents capacity (queue h))) as Hdrop1.
    { rewrite Hlog, drop_app_ge by lia.
      f_equal. lia. }
    rewrite Hdrop1, Hdrop. subst r. unfold apply_op.
    destruct (decide (tail (queue h) = head (queue h))) as [He|Hne].
    + assert (contents capacity (queue h) = []) as ->.
      { apply length_zero_iff_nil. symmetry in He. apply Hempty in He. lia. }
      by rewrite pop_front_false.
    + pose proof (contents_pop_front capacity capacity_pos item _ Hwf Hne) as Hc.
      rewrite Hc. rewrite pop_front_true by done. simpl. done.
Qed.

End RingBufferHistory.

(** The queue of the job system has capacity 256. *)
Lemma push_back_spec_witness :
  wf 256 (empty_buffer 256 0%nat) /\
  (push_back 256 7%nat (empty_buffer 256 0%nat)).1 = true /\
  contents 256 (push_back 256 7%nat (empty_buffer 256 0%nat)).2 = [7%nat].
Proof.
  assert (wf 256 (empty_buffer 256 0%nat)) as Hwf by (apply wf_empty_buffer; lia).
  destruct (push_back_spec 256 7%nat (empty_buffer 256 0%nat)) as (Hok & Hins & _).
  assert ((push_back 256 7%nat (empty_buffer 256 0%nat)).1 = true) as Htrue
    by (apply Hok; vm_compute; congruence).
  split_and!; [exact Hwf|exact Htrue|].
  destruct (Hins Htrue) as (_ & _ & _ & Hc).
  exact (proj2 (Hc Hwf)).
Defined.

(** 300 pushes in a row: 255 succeed, the queue is full. *)
Lemma ring_buffer_bounded_witness :
  0 < 256 /\
  in_flight (run_ops 256 0%nat (replicate 300 (Push 1%nat))) = 255 /\
  (in_flight (run_ops 256 0%nat (replicate 300 (Push 1%nat))) = 256 - 1 <->
   (head (queue (run_ops 256 0%nat (replicate 300 (Push 1%nat)))) + 1) mod 256
   = tail (queue (run_ops 256 0%nat (replicate 300 (Push 1%nat))))).
Proof.
  split; [lia|]. split; [vm_compute; reflexivity|].
  apply (ring_buffer_bounded 256 ltac:(lia) 0%nat (replicate 300 (Push 1%nat))).
Defined.

(** Three pushes and one pop: the pop handed out the first push, the next
    pop hands out the second. *)
Lemma ring_buffer_fifo_witness :
  0 < 256 /\
  popped (run_ops 256 0%nat [Push 1; Push 2; Pop 0; Push 3])%nat = [1%nat] /\
  (pop_front 256 0%nat (queue (run_ops 256 0%nat [Push 1; Push 2; Pop 0; Push 3])%nat)).1
  = (true, 2%nat).
Proof.
  split; [lia|]. split; [vm_compute; reflexivity|].
  pose proof (ring_buffer_fifo 256 ltac:(lia) 0%nat
                [Push 1; Push 2; Pop 0; Push 3]%nat 0%nat) as H.
  cbv zeta in H. destruct H as (_ & _ & H).
  assert (drop (length (popped (run_ops 256 0%nat [Push 1; Push 2; Pop 0; Push 3])))
               (pushed (run_ops 256 0%nat [Push 1; Push 2; Pop 0; Push 3]))
          = [2; 3])%nat as E by (vm_compute; reflexivity).
  rewrite E in H.
  destruct H as (H1 & H2 & _).
  apply injective_projections; [exact H1|exact H2].
Defined.

(** * Facts about the job system *)

(** ** Dispatch: group count and the index ranges of the groups *)

Section DispatchArithmetic.

Lemma wrap32_small (z : Z) : is_uint32 z -> wrap32 z = z.
Proof. intros Hz. apply Z.mod_small. exact Hz. Qed.

Lemma wrap32_range (z : Z) : is_uint32 (wrap32 z).
Proof. apply Z.mod_pos_bound. lia. Qed.

(** Without wrap-around the quotient is the ceiling of
    [jobCount / groupSize]: the least [g] with [jobCount <= g * groupSize]. *)
Lemma groupCount_of_ceiling (jobCount groupSize : Z) :
  0 < jobCount -> 0 < groupSize -> jobCount + groupSize - 1 < 2 ^ 32 ->
  groupCount_of jobCount groupSize = (jobCount + groupSize - 1) / groupSize /\
  (groupCount_of jobCount groupSize - 1) * groupSize < jobCount
    <= groupCount_of jobCount groupSize * groupSize.
Proof.
  intros Hj Hg Hsum. unfold groupCount_of.
  unfold wrap32. rewrite Zminus_mod_idemp_l.
  rewrite (Z.mod_small (jobCount + groupSize - 1)) by lia.
  split; [done|].
  pose proof (Z.mul_div_le (jobCount + groupSize - 1) groupSize ltac:(lia)).
  pose proof (Z.mul_succ_div_gt (jobCount + groupSize - 1) groupSize ltac:(lia)).
  nia.
Qed.

(** With wrap-around the quotient is zero. *)
Lemma groupCount_of_overflow (jobCount groupSize : Z) :
  is_uint32 jobCount -> is_uint32 groupSize ->
  2 ^ 32 <= jobCount + groupSize - 1 ->
  groupCount_of jobCount groupSize = 0.
Proof.
  unfold is_uint32, groupCount_of. intros Hj Hg Hsum.
  unfold wrap32. rewrite Zminus_mod_idemp_l.
  replace ((jobCount + groupSize - 1) mod 2 ^ 32)
    with (jobCount + groupSize - 1 - 2 ^ 32).
  - apply Z.div_small. lia.
  - apply (Z.mod_unique_pos _ _ 1); lia.
Qed.

Lemma groupCount_of_range (jobCount groupSize : Z) :
  0 < groupSize -> is_uint32 (groupCount_of jobCount groupSize).
Proof.
  intros Hg. unfold groupCount_of.
  pose proof (wrap32_range (wrap32 (jobCount + groupSize) - 1)) as [Hlo Hhi].
  split.
  - apply Z.div_pos; lia.
  - eapply Z.le_lt_trans; [|exact Hhi].
    apply Z.div_le_upper_bound; [lia|]. nia.
Qed.

(** The inner loop visits [i, i+1, ..., groupJobEnd - 1]: a bound of at
    least [groupJobEnd - i] iterations never cuts it short. *)
Lemma group_loop_exact (bound : nat) (i stop : Z) (job : nat) (gi : Z) :
  0 <= i -> stop < 2 ^ 32 -> (Z.to_nat (stop - i) <= bound)%nat ->
  group_loop bound i stop job gi
  = (fun k => InvokedRanged job (mkArgs k gi)) <$> seqZ i (stop - i).
Proof.
  revert i. induction bound as [|bound IH]; intros i Hi Hstop Hb.
  - rewrite seqZ_nil by lia. done.
  - simpl. destruct (Z.ltb_spec i stop) as [Hlt|Hge].
    + rewrite seqZ_cons by lia. simpl. f_equal.
      rewrite wrap32_small by (unfold is_uint32; lia).
      rewrite IH by lia. do 2 f_equal; lia.
    + rewrite seqZ_nil by lia. done.
Qed.

(** The body of group [gi] calls [job] on the indices
    [gi * groupSize, ..., min((gi + 1) * groupSize, jobCount) - 1], in
    increasing order, each with [groupIndex = gi]. *)
Lemma jobGroup_body_range (jobCount groupSize : Z) (job : nat) (gi : Z) :
  0 < jobCount -> 0 < groupSize -> jobCount + groupSize - 1 < 2 ^ 32 ->
  0 <= gi < groupCount_of jobCount groupSize ->
  jobGroup_body jobCount groupSize job gi
  = (fun k => InvokedRanged job (mkArgs k gi))
      <$> seqZ (gi * groupSize) (Z.min groupSize (jobCount - gi * groupSize)).
Proof.
  intros Hj Hg Hsum Hgi.
  destruct (groupCount_of_ceiling jobCount groupSize Hj Hg Hsum) as [_ Hceil].
  assert (0 <= gi * groupSize < jobCount) as Hoff by nia.
  unfold jobGroup_body.
  rewrite (wrap32_small (gi * groupSize)) by (unfold is_uint32; lia).
  rewrite wrap32_small by (unfold is_uint32; lia).
  rewrite group_loop_exact by lia.
  do 2 f_equal. lia.
Qed.

Lemma Dispatch_jobs_eq (jobCount groupSize : Z) (job : nat) :
  Dispatch_jobs jobCount groupSize job
  = if (jobCount =? 0) || (groupSize =? 0) then []
    else JobGroup jobCount groupSize job <$> seqZ 0 (groupCount_of jobCount groupSize).
Proof.
  unfold Dispatch_jobs, Dispatch_enter.
  destruct ((jobCount =? 0) || (groupSize =? 0)); [done|].
  simpl. by rewrite Z.sub_0_r.
Qed.

(** The calls made by the first [k] groups, one group after the other. *)
Lemma first_groups_cover (jobCount groupSize : Z) (job : nat) (k : Z) :
  0 < jobCount -> 0 < groupSize -> jobCount + groupSize - 1 < 2 ^ 32 ->
  0 <= k <= groupCount_of jobCount groupSize ->
  mjoin (run_job <$> (JobGroup jobCount groupSize job <$> seqZ 0 k))
  = (fun i => InvokedRanged job (mkArgs i (i / groupSize)))
      <$> seqZ 0 (Z.min (k * groupSize) jobCount).
Proof.
  intros Hj Hg Hsum [Hk0 Hk]. revert Hk. pattern k.
  apply natlike_ind; [| |exact Hk0]; clear k Hk0.
  - intros _. rewrite Z.mul_0_l, Z.min_l by lia. done.
  - intros k Hk0 IH Hk.
    destruct (groupCount_of_ceiling jobCount groupSize Hj Hg Hsum) as [_ Hceil].
    assert (0 <= k * groupSize < jobCount) as Hoff by nia.
    replace (Z.succ k) with (k + 1) by lia.
    rewrite (seqZ_app 0 k 1) by lia.
    rewrite !fmap_app, join_app, IH by lia.
    change (seqZ (0 + k) 1) with [0 + k]. simpl. rewrite app_nil_r, Z.add_0_l.
    rewrite jobGroup_body_range by lia.
    replace (Z.min ((k + 1) * groupSize) jobCount)
      with (Z.min (k * groupSize) jobCount
            + Z.min groupSize (jobCount - k * groupSize)) by lia.
    rewrite seqZ_app by lia. rewrite fmap_app. f_equal.
    rewrite Z.add_0_l, (Z.min_l (k * groupSize)) by lia.
    apply Forall_fmap_ext, Forall_seqZ. intros i Hi. do 2 f_equal.
    apply (Z.div_unique_pos _ _ _ (i - k * groupSize)); lia.
Qed.

End DispatchArithmetic.

(** ** The label counters across all interleavings *)

Section LabelInvariant.

Lemma capacity_256_pos : 0 < jobPool_capacity.
Proof. reflexivity. Qed.

Lemma busy_count_cons (w : Worker) (ws : list Worker) :
  busy_count (w :: ws) = (if holds_job w then 1 else 0) + busy_count ws.
Proof.
  unfold busy_count. rewrite filter_cons.
  destruct (holds_job w); simpl; [|done]. lia.
Qed.

Lemma busy_count_insert (ws : list Worker) (i : nat) (w w' : Worker) :
  ws !! i = Some w ->
  busy_count (<[i := w']> ws)
  = busy_count ws - (if holds_job w then 1 else 0) + (if holds_job w' then 1 else 0).
Proof.
  revert i. induction ws as [|w0 ws IH]; intros i Hi; [done|].
  destruct i as [|i]; simpl in Hi |- *.
  - injection Hi as ->. rewrite !busy_count_cons. lia.
  - rewrite !busy_count_cons, (IH i Hi). lia.
Qed.

Lemma busy_count_wake_one (ws : list Worker) :
  busy_count (wake_one ws) = busy_count ws.
Proof.
  induction ws as [|w ws IH]; [done|]. simpl.
  destruct w as [p j]. destruct p; simpl; rewrite ?busy_count_cons; simpl; lia.
Qed.

Lemma busy_count_zero (ws : list Worker) :
  busy_count ws = 0 <-> Forall (fun w => holds_job w = false) ws.
Proof.
  induction ws as [|w ws IH].
  - split; [constructor|done].
  - rewrite busy_count_cons, Forall_cons, <- IH.
    assert (0 <= busy_count ws) by (unfold busy_count; lia).
    destruct (holds_job w); split; try lia; intros [? ?]; lia || done.
Qed.

Lemma outstanding_eq (s : State) :
  outstanding s
  = Z.of_nat (length (caller_jobs (caller s)))
    + Z.of_nat (length (contents jobPool_capacity (jobPool s)))
    + busy_count (workers s).
Proof. reflexivity. Qed.

Lemma outstanding_notify_one (s : State) :
  outstanding (notify_one s) = outstanding s.
Proof.
  rewrite !outstanding_eq. unfold notify_one; simpl.
  by rewrite busy_count_wake_one.
Qed.

Lemma outstanding_zero (s : State) : outstanding s = 0 <-> idle s.
Proof.
  rewrite outstanding_eq. unfold idle. rewrite <- busy_count_zero.
  assert (0 <= busy_count (workers s)) by (unfold busy_count; lia).
  rewrite <- !length_zero_iff_nil. lia.
Qed.

Lemma wrap64_add_l (a b : Z) : wrap64 (wrap64 a + b) = wrap64 (a + b).
Proof. unfold wrap64. apply Zplus_mod_idemp_l. Qed.

Lemma wrap64_range (a : Z) : 0 <= wrap64 a < 2 ^ 64.
Proof. apply Z.mod_pos_bound. lia. Qed.

Lemma label_inv_notify_one (s : State) : label_inv s -> label_inv (notify_one s).
Proof.
  intros (Hc & Hf & Hq & Hcal & Heq). unfold label_inv.
  rewrite outstanding_notify_one. done.
Qed.

Lemma label_inv_initial (numCores : Z) :
  label_inv (Initialize numCores initial_state).
Proof.
  unfold label_inv, Initialize.
  cbn [currentLabel finishedLabel jobPool caller set_finishedLabel initial_state].
  split_and!; try done; try lia.
  rewrite outstanding_eq.
  cbn [currentLabel finishedLabel jobPool caller workers set_finishedLabel
       initial_state caller_jobs length].
  rewrite (contents_empty_buffer _ capacity_256_pos). simpl app.
  assert (busy_count (replicate (Z.to_nat (Z.max 1 numCores))
                                (mkWorker AtPop EmptyFunction)) = 0) as ->; [|done].
  apply busy_count_zero, Forall_replicate. done.
Qed.

Lemma label_inv_Execute_enter (job : Job) (s : State) :
  caller s = Outside -> label_inv s -> label_inv (Execute_enter job s).
Proof.
  intros Hout (Hc & Hf & Hq & Hcal & Heq). unfold label_inv, Execute_enter.
  rewrite outstanding_eq in Heq |- *. simpl. rewrite Hout in Heq; simpl in Heq.
  split_and!; try done; try lia; try apply wrap64_range.
  rewrite Heq, wrap64_add_l. f_equal. lia.
Qed.

Lemma length_caller_jobs_InDispatch (jc gs : Z) (job : nat) (gc gi : Z) :
  length (caller_jobs (InDispatch jc gs job gc gi)) = Z.to_nat (gc - gi).
Proof. simpl. by rewrite length_fmap, length_seqZ. Qed.

Lemma label_inv_Dispatch_enter (jc gs : Z) (job : nat) (s : State) :
  is_uint32 jc -> is_uint32 gs ->
  caller s = Outside -> label_inv s -> label_inv (Dispatch_enter jc gs job s).
Proof.
  intros Hjc Hgs Hout Hinv. unfold Dispatch_enter.
  destruct (Z.eqb_spec jc 0); [done|]. destruct (Z.eqb_spec gs 0); [done|]. simpl.
  destruct Hinv as (Hc & Hf & Hq & Hcal & Heq).
  pose proof (groupCount_of_range jc gs ltac:(unfold is_uint32 in Hgs; lia)) as [Hg0 Hg1].
  unfold label_inv. rewrite outstanding_eq in Heq |- *.
  cbn [currentLabel finishedLabel jobPool caller workers set_caller set_currentLabel].
  rewrite length_caller_jobs_InDispatch. rewrite Hout in Heq; simpl in Heq.
  split_and!; try done; try lia; try apply wrap64_range.
  rewrite Heq, wrap64_add_l. f_equal. lia.
Qed.

Lemma label_inv_caller_step (s : State) : label_inv s -> label_inv (caller_step s).
Proof.
  intros Hinv. unfold caller_step.
  destruct (caller s) as [|job|jc gs job gc gi|] eqn:Hcal.
  - done.
  - destruct (decide ((head (jobPool s) + 1) mod jobPool_capacity = tail (jobPool s)))
      as [Hfull|Hroom].
    + rewrite push_back_false by done. by apply label_inv_notify_one.
    + destruct Hinv as (Hc & Hf & Hq & Hok & Heq).
      pose proof (wf_push_back _ capacity_256_pos job _ Hq) as Hq'.
      pose proof (contents_push_back _ capacity_256_pos job _ Hq Hroom) as Hcont.
      rewrite push_back_true in Hq', Hcont |- * by done.
      apply label_inv_notify_one. unfold label_inv.
      rewrite outstanding_eq in Heq |- *. rewrite Hcal in Heq.
      cbn [currentLabel finishedLabel jobPool caller workers set_caller set_jobPool snd] in *.
      split_and!; try done; try lia.
      rewrite Hcont, length_app, Heq. simpl. f_equal. lia.
  - destruct (Z.ltb_spec gi gc) as [Hlt|Hge].
    + destruct (decide ((head (jobPool s) + 1) mod jobPool_capacity = tail (jobPool s)))
        as [Hfull|Hroom].
      * rewrite push_back_false by done. by apply label_inv_notify_one.
      * destruct Hinv as (Hc & Hf & Hq & Hok & Heq).
        pose proof (wf_push_back _ capacity_256_pos (JobGroup jc gs job gi) _ Hq) as Hq'.
        pose proof (contents_push_back _ capacity_256_pos (JobGroup jc gs job gi) _ Hq Hroom)
          as Hcont.
        rewrite push_back_true in Hq', Hcont |- * by done.
        apply label_inv_notify_one. unfold label_inv.
        rewrite outstanding_eq in Heq |- *. rewrite Hcal in Heq, Hok.
        rewrite length_caller_jobs_InDispatch in Heq.
        cbn [currentLabel finishedLabel jobPool caller workers set_caller set_jobPool snd] in *.
        rewrite length_caller_jobs_InDispatch.
        destruct Hok as [Hgi Hgc].
        rewrite wrap32_small by (unfold is_uint32; lia).
        split_and!; try done; try lia; [simpl; lia|].
        rewrite Hcont, length_app, Heq. simpl. f_equal. lia.
    + destruct Hinv as (Hc & Hf & Hq & Hok & Heq).
      unfold label_inv. rewrite outstanding_eq in Heq |- *. rewrite Hcal in Heq.
      rewrite length_caller_jobs_InDispatch in Heq.
      cbn [currentLabel finishedLabel jobPool caller workers set_caller] in *.
      split_and!; try done; try lia. rewrite Heq. simpl. f_equal. lia.
  - unfold IsBusy. destruct (finishedLabel s <? currentLabel s).
    + by apply label_inv_notify_one.
    + destruct Hinv as (Hc & Hf & Hq & Hok & Heq).
      unfold label_inv. rewrite outstanding_eq in Heq |- *. rewrite Hcal in Heq.
      cbn [currentLabel finishedLabel jobPool caller workers set_caller] in *.
      split_and!; try done; lia.
Qed.

(** A turn of the submitting thread moves at most the next closure it has
    to push to the back of the queue: the queued jobs followed by the
    jobs still to push stay the same sequence. So [Execute] pushes its
    job, and [Dispatch] pushes the closures of [caller_jobs] one by one
    in the order of the loop, and returns when none is left. *)
Lemma caller_step_pushes_in_order (s : State) :
  wf jobPool_capacity (jobPool s) -> caller_ok (caller s) ->
  contents jobPool_capacity (jobPool (caller_step s))
    ++ caller_jobs (caller (caller_step s))
  = contents jobPool_capacity (jobPool s) ++ caller_jobs (caller s).
Proof.
  intros Hq Hok. unfold caller_step.
  destruct (caller s) as [|job|jc gs job gc gi|] eqn:Hcal.
  - by rewrite Hcal.
  - destruct (decide ((head (jobPool s) + 1) mod jobPool_capacity = tail (jobPool s)))
      as [Hfull|Hroom].
    + rewrite push_back_false by done. simpl. by rewrite Hcal.
    + pose proof (contents_push_back _ capacity_256_pos job _ Hq Hroom) as Hcont.
      rewrite push_back_true in Hcont |- * by done. simpl in *.
      by rewrite Hcont, app_nil_r.
  - destruct (Z.ltb_spec gi gc) as [Hlt|Hge].
    + destruct (decide ((head (jobPool s) + 1) mod jobPool_capacity = tail (jobPool s)))
        as [Hfull|Hroom].
      * rewrite push_back_false by done. simpl. by rewrite Hcal.
      * pose proof (contents_push_back _ capacity_256_pos (JobGroup jc gs job gi) _ Hq Hroom)
          as Hcont.
        rewrite push_back_true in Hcont |- * by done.
        cbn [notify_one set_workers set_caller set_jobPool jobPool caller snd] in *.
        destruct Hok as [Hgi Hgc].
        rewrite Hcont, wrap32_small by (unfold is_uint32; lia).
        cbn [caller_jobs]. rewrite (seqZ_cons gi) by lia. rewrite <- app_assoc.
        cbn [fmap list_fmap app]. do 4 f_equal; lia.
    + simpl. rewrite seqZ_nil by lia. done.
  - unfold IsBusy. destruct (finishedLabel s <? currentLabel s); simpl; by rewrite ?Hcal.
Qed.

Lemma label_inv_worker_step (i : nat) (s : State) :
  label_inv s -> label_inv (worker_step i s).
Proof.
  intros Hinv. unfold worker_step.
  destruct (workers s !! i) as [w|] eqn:Hw; [|done].
  destruct Hinv as (Hc & Hf & Hq & Hok & Heq).
  rewrite outstanding_eq in Heq.
  destruct w as [p j]; destruct p; cbn [pc job_var].
  - destruct (decide (tail (jobPool s) = head (jobPool s))) as [He|Hne].
    + rewrite pop_front_false by done.
      unfold label_inv. rewrite outstanding_eq.
      cbn [currentLabel finishedLabel jobPool caller workers set_workers].
      rewrite (busy_count_insert _ _ _ _ Hw). simpl.
      split_and!; try done; try lia. rewrite Heq. f_equal. lia.
    + pose proof (wf_pop_front _ capacity_256_pos j _ Hq) as Hq'.
      pose proof (contents_pop_front _ capacity_256_pos j _ Hq Hne) as Hcont.
      rewrite pop_front_true in Hq', Hcont |- * by done.
      unfold label_inv. rewrite outstanding_eq.
      cbn [currentLabel finishedLabel jobPool caller workers set_workers set_jobPool
           fst snd] in *.
      rewrite (busy_count_insert _ _ _ _ Hw). rewrite Hcont in Heq. simpl in Heq |- *.
      split_and!; try done; try lia. rewrite Heq. f_equal. lia.
  - unfold label_inv. rewrite outstanding_eq.
    cbn [currentLabel finishedLabel jobPool caller workers set_workers].
    rewrite (busy_count_insert _ _ _ _ Hw). simpl.
    split_and!; try done; try lia. rewrite Heq. f_equal. lia.
  - unfold label_inv. rewrite outstanding_eq.
    cbn [currentLabel finishedLabel jobPool caller workers set_workers set_effects].
    rewrite (busy_count_insert _ _ _ _ Hw). simpl.
    split_and!; try done; try lia. rewrite Heq. f_equal. lia.
  - unfold label_inv. rewrite outstanding_eq.
    cbn [currentLabel finishedLabel jobPool caller workers set_workers set_finishedLabel].
    rewrite (busy_count_insert _ _ _ _ Hw). simpl.
    split_and!; try done; try lia; try apply wrap64_range.
    rewrite Heq, wrap64_add_l. f_equal. lia.
Qed.

Lemma label_inv_step (s : State) (e : Event) :
  valid_event e -> label_inv s -> label_inv (step s e).
Proof.
  intros He Hinv. destruct e as [job|jc gs job| | |i]; simpl.
  - destruct (caller s) eqn:Hcal; try done. by apply label_inv_Execute_enter.
  - destruct (caller s) eqn:Hcal; try done. destruct He.
    by apply label_inv_Dispatch_enter.
  - destruct (caller s) eqn:Hcal; try done.
    destruct Hinv as (Hc & Hf & Hq & Hok & Heq).
    unfold label_inv, Wait_enter. rewrite outstanding_eq in Heq |- *.
    rewrite Hcal in Heq. simpl in *. done.
  - by apply label_inv_caller_step.
  - by apply label_inv_worker_step.
Qed.

Lemma label_inv_run (evs : list Event) (s : State) :
  Forall valid_event evs -> label_inv s -> label_inv (run evs s).
Proof.
  revert s. induction evs as [|e evs IH]; intros s Hv Hinv; [done|].
  apply Forall_cons in Hv as [He Hv]. simpl.
  apply IH; [done|]. by apply label_inv_step.
Qed.

Lemma run_app (evs1 evs2 : list Event) (s : State) :
  run (evs1 ++ evs2) s = run evs2 (run evs1 s).
Proof. apply fold_left_app. Qed.

End LabelInvariant.

(** ** Wrap-around of the 64-bit labels *)

Section LabelWrap.

Lemma at_rest_initial : at_rest 0 (Initialize 1 initial_state).
Proof.
  unfold at_rest. split_and!; try done. by exists EmptyFunction.
Qed.

Lemma at_rest_submit_and_finish (n : Z) (s : State) :
  at_rest n s -> at_rest (n + 1) (run submit_and_finish s).
Proof.
  intros (Hcal & [j Hws] & Hht & Hq & Hc & Hf).
  destruct s as [nt [d h t] c f cal ws es]. simpl in *. subst.
  destruct Hq as (Hh & _ & Hlen). simpl in *.
  assert ((t + 1) mod jobPool_capacity <> t) as Hnext.
  { unfold jobPool_capacity in *. rewrite next_index by lia. case_decide; lia. }
  set (q1 := mkRingBuffer (<[Z.to_nat t := Closure 0]> d)
                          ((t + 1) mod jobPool_capacity) t).
  set (q2 := mkRingBuffer (<[Z.to_nat t := Closure 0]> d)
                          ((t + 1) mod jobPool_capacity)
                          ((t + 1) mod jobPool_capacity)).
  set (c1 := wrap64 (wrap64 n + 1)).
  assert (Execute_enter (Closure 0)
            (mkState nt (mkRingBuffer d t t) (wrap64 n) (wrap64 n) Outside
                     [mkWorker AtPop j] es)
          = mkState nt (mkRingBuffer d t t) c1 (wrap64 n) (InExecute (Closure 0))
                    [mkWorker AtPop j] es) as E1 by reflexivity.
  assert (caller_step (mkState nt (mkRingBuffer d t t) c1 (wrap64 n)
                               (InExecute (Closure 0)) [mkWorker AtPop j] es)
          = mkState nt q1 c1 (wrap64 n) Outside [mkWorker AtPop j] es) as E2.
  { unfold caller_step. cbn [caller jobPool].
    rewrite push_back_true by done. reflexivity. }
  assert (worker_step 0 (mkState nt q1 c1 (wrap64 n) Outside [mkWorker AtPop j] es)
          = mkState nt q2 c1 (wrap64 n) Outside [mkWorker AtCall (Closure 0)] es) as E3.
  { unfold worker_step. cbn [workers lookup list_lookup pc job_var jobPool].
    rewrite pop_front_true by (subst q1; cbn [head tail]; done).
    subst q1. cbn [head tail data].
    rewrite list_lookup_insert_eq by lia. reflexivity. }
  assert (worker_step 0 (mkState nt q2 c1 (wrap64 n) Outside
                                 [mkWorker AtCall (Closure 0)] es)
          = mkState nt q2 c1 (wrap64 n) Outside [mkWorker AtFetchAdd (Closure 0)]
                    (es ++ [Invoked 0])) as E4 by reflexivity.
  assert (worker_step 0 (mkState nt q2 c1 (wrap64 n) Outside
                                 [mkWorker AtFetchAdd (Closure 0)] (es ++ [Invoked 0]))
          = mkState nt q2 c1 c1 Outside [mkWorker AtPop (Closure 0)]
                    (es ++ [Invoked 0])) as E5 by reflexivity.
  unfold run, submit_and_finish. cbn [fold_left].
  rewrite E1, E2, E3, E4, E5.
  unfold at_rest.
  cbn [currentLabel numThreads jobPool finishedLabel caller workers effects].
  subst q2 c1. cbn [head tail data].
  split_and!; try done.
  - by exists (Closure 0).
  - unfold wf. cbn [head tail data]. rewrite length_insert.
    pose proof (Z.mod_pos_bound (t + 1) jobPool_capacity capacity_256_pos). lia.
  - apply wrap64_add_l.
  - apply wrap64_add_l.
Qed.

Lemma at_rest_repeat (k : nat) (n : Z) (s : State) :
  at_rest n s ->
  at_rest (n + Z.of_nat k) (run (mjoin (replicate k submit_and_finish)) s).
Proof.
  revert n s. induction k as [|k IH]; intros n s Hs.
  - rewrite Z.add_0_r. exact Hs.
  - change (mjoin (replicate (S k) submit_and_finish))
      with (submit_and_finish ++ mjoin (replicate k submit_and_finish)).
    rewrite run_app.
    replace (n + Z.of_nat (S k)) with (n + 1 + Z.of_nat k) by lia.
    apply IH, at_rest_submit_and_finish, Hs.
Qed.

Lemma valid_repeat (k : nat) :
  Forall valid_event (mjoin (replicate k submit_and_finish)).
Proof.
  induction k as [|k IH]; [constructor|].
  change (mjoin (replicate (S k) submit_and_finish))
    with (submit_and_finish ++ mjoin (replicate k submit_and_finish)).
  apply Forall_app. split; [|exact IH].
  repeat constructor.
Qed.

(** After [k] submissions that have all completed, one more call of
    [Execute] leaves [currentLabel] at [k + 1] and [finishedLabel] at
    [k], both in 64-bit arithmetic. *)
Lemma labels_after_repeat (k : nat) :
  let s := run (mjoin (replicate k submit_and_finish) ++ [CallExecute (Closure 0)])
               (Initialize 1 initial_state) in
  currentLabel s = wrap64 (Z.of_nat k + 1) /\ finishedLabel s = wrap64 (Z.of_nat k).
Proof.
  intros s. subst s. rewrite run_app.
  pose proof (at_rest_repeat k 0 _ at_rest_initial) as (Hcal & _ & _ & _ & Hc & Hf).
  rewrite Z.add_0_l in Hc, Hf.
  generalize dependent (run (mjoin (replicate k submit_and_finish))
                            (Initialize 1 initial_state)).
  intros s1 Hcal Hc Hf.
  change (run [CallExecute (Closure 0)] s1) with (step s1 (CallExecute (Closure 0))).
  cbn [step]. rewrite Hcal.
  unfold Execute_enter. cbn [currentLabel finishedLabel set_caller set_currentLabel].
  rewrite Hc, Hf. split; [apply wrap64_add_l|done].
Qed.

End LabelWrap.

(** ** Dispatch *)

Section DispatchClaims.

(** Without wrap-around in [jobCount + groupSize - 1], the closures
    built by [Dispatch], run one after the other, call [job] once for
    each index of [0, jobCount), with [groupIndex = index / groupSize],
    and make no other call; [Dispatch] builds [groupCount] closures. *)
Lemma Dispatch_covers_without_wrap (jobCount groupSize : Z) (job : nat) :
  0 < jobCount -> 0 < groupSize -> jobCount + groupSize - 1 < 2 ^ 32 ->
  let calls := mjoin (run_job <$> Dispatch_jobs jobCount groupSize job) in
  calls = (fun i => InvokedRanged job (mkArgs i (i / groupSize))) <$> seqZ 0 jobCount /\
  NoDup calls /\
  Z.of_nat (length (Dispatch_jobs jobCount groupSize job))
  = groupCount_of jobCount groupSize.
Proof.
  intros Hj Hg Hsum calls.
  destruct (groupCount_of_ceiling jobCount groupSize Hj Hg Hsum) as [_ Hceil].
  assert (0 <= groupCount_of jobCount groupSize) as Hgc by nia.
  assert (calls = (fun i => InvokedRanged job (mkArgs i (i / groupSize)))
                    <$> seqZ 0 jobCount) as Hcalls.
  { subst calls. rewrite Dispatch_jobs_eq.
    destruct (Z.eqb_spec jobCount 0); [lia|]. destruct (Z.eqb_spec groupSize 0); [lia|].
    cbn [orb]. rewrite first_groups_cover by lia.
    by rewrite Z.min_r by lia. }
  split_and!; [exact Hcalls| |].
  - rewrite Hcalls. apply NoDup_fmap_2; [|apply NoDup_seqZ].
    intros i1 i2 Heq. by injection Heq.
  - rewrite Dispatch_jobs_eq.
    destruct (Z.eqb_spec jobCount 0); [lia|]. destruct (Z.eqb_spec groupSize 0); [lia|].
    cbn [orb]. rewrite length_fmap, length_seqZ. lia.
Qed.

(** Within one group the indices are consecutive and increasing. *)
Lemma Dispatch_group_increasing (jobCount groupSize : Z) (job : nat) (g : Job) :
  0 < jobCount -> 0 < groupSize -> jobCount + groupSize - 1 < 2 ^ 32 ->
  g ∈ Dispatch_jobs jobCount groupSize job ->
  exists gi, 0 <= gi < groupCount_of jobCount groupSize /\
    g = JobGroup jobCount groupSize job gi /\
    run_job g = (fun k => InvokedRanged job (mkArgs k gi))
                  <$> seqZ (gi * groupSize)
                           (Z.min groupSize (jobCount - gi * groupSize)).
Proof.
  intros Hj Hg Hsum. rewrite Dispatch_jobs_eq.
  destruct (Z.eqb_spec jobCount 0); [lia|]. destruct (Z.eqb_spec groupSize 0); [lia|].
  cbn [orb]. intros Hin. apply list_elem_of_fmap in Hin as (gi & -> & Hgi).
  apply elem_of_seqZ in Hgi. exists gi. split_and!; [lia..|done|].
  simpl. apply jobGroup_body_range; lia.
Qed.

(** [Dispatch(10, 3, f)]: four groups, of sizes 3, 3, 3 and 1. *)
Example Dispatch_10_3 (f : nat) :
  Dispatch_jobs 10 3 f = [JobGroup 10 3 f 0; JobGroup 10 3 f 1;
                          JobGroup 10 3 f 2; JobGroup 10 3 f 3] /\
  run_job <$> Dispatch_jobs 10 3 f
  = [ [InvokedRanged f (mkArgs 0 0); InvokedRanged f (mkArgs 1 0);
       InvokedRanged f (mkArgs 2 0)];
      [InvokedRanged f (mkArgs 3 1); InvokedRanged f (mkArgs 4 1);
       InvokedRanged f (mkArgs 5 1)];
      [InvokedRanged f (mkArgs 6 2); InvokedRanged f (mkArgs 7 2);
       InvokedRanged f (mkArgs 8 2)];
      [InvokedRanged f (mkArgs 9 3)] ].
Proof. split; reflexivity. Qed.

(** The same call through the whole system, one worker: the caller
    pushes the four groups, the worker pops and runs each; afterwards
    both labels are 4 and [f] has been called on 0..9. *)
Example Dispatch_10_3_run (f : nat) :
  let s := run ([CallDispatch 10 3 f] ++ replicate 5 CallerStep
                ++ replicate 12 (WorkerStep 0))
               (Initialize 1 initial_state) in
  caller s = Outside /\ currentLabel s = 4 /\ finishedLabel s = 4 /\
  effects s = (fun i => InvokedRanged f (mkArgs i (i / 3))) <$> seqZ 0 10.
Proof. split_and!; reflexivity. Qed.

(** C5, at [jobCount = 4294967295], [groupSize = 2]: the sum
    [jobCount + groupSize - 1] wraps around to 0, so [groupCount] is 0
    and not the ceiling 2147483648; [currentLabel] is not advanced and
    no closure is built. *)
Theorem groupCount_wrapped_sum_is_zero :
  groupCount_of 4294967295 2 = 0 /\
  (2147483648 - 1) * 2 < 4294967295 <= 2147483648 * 2 /\
  forall (job : nat) (s : State),
    currentLabel (Dispatch_enter 4294967295 2 job s) = wrap64 (currentLabel s + 0) /\
    caller (Dispatch_enter 4294967295 2 job s) = InDispatch 4294967295 2 job 0 0 /\
    Dispatch_jobs 4294967295 2 job = [].
Proof. split_and!; try done. Qed.

(** C1, at [jobCount = 4294967295], [groupSize = 2]: [Dispatch] builds
    no closure, so [job] is called for no index, although index 0 lies
    in [0, jobCount); the whole call leaves the system as it found it. *)
Theorem Dispatch_wrapped_sum_calls_nothing (job : nat) :
  0 <= 0 < 4294967295 /\
  Dispatch_jobs 4294967295 2 job = [] /\
  mjoin (run_job <$> Dispatch_jobs 4294967295 2 job) = [] /\
  run [CallDispatch 4294967295 2 job; CallerStep] (Initialize 1 initial_state)
  = Initialize 1 initial_state.
Proof. split_and!; try done. Qed.

(** C9. [Dispatch(0, g, f)] and [Dispatch(j, 0, f)] return at once: the
    state after is the state before (labels, queue, threads and the
    calls made so far), and no closure is built. *)
Theorem Dispatch_zero_is_noop (j g : Z) (f : nat) (s : State) :
  Dispatch_enter 0 g f s = s /\
  Dispatch_enter j 0 f s = s /\
  step s (CallDispatch 0 g f) = s /\
  step s (CallDispatch j 0 f) = s /\
  Dispatch_jobs 0 g f = [] /\
  Dispatch_jobs j 0 f = [].
Proof.
  assert (forall s', Dispatch_enter j 0 f s' = s') as Hj.
  { intros s'. unfold Dispatch_enter. by rewrite orb_true_r. }
  split_and!; try done.
  - simpl. by destruct (caller s).
  - simpl. rewrite Hj. by destruct (caller s).
  - unfold Dispatch_jobs. by rewrite Hj.
Qed.

End DispatchClaims.

(** ** IsBusy, Wait, Initialize and the labels *)

Section LabelClaims.

Lemma worker_step_frame (i : nat) (s : State) :
  caller (worker_step i s) = caller s /\
  currentLabel (worker_step i s) = currentLabel s.
Proof.
  unfold worker_step. destruct (workers s !! i) as [[p j]|]; [|done].
  destruct p; cbn [pc job_var]; try done.
  unfold pop_front. by destruct (negb _).
Qed.

(** While the submitting thread is in [Wait], a step either leaves it
    there with [currentLabel] as it was, or is the exit of the loop,
    taken on [finishedLabel >= currentLabel] and changing nothing else. *)
Lemma step_in_Wait (s : State) (e : Event) :
  caller s = InWait ->
  (caller (step s e) = InWait /\ currentLabel (step s e) = currentLabel s) \/
  (step s e = set_caller Outside s /\ currentLabel s <= finishedLabel s).
Proof.
  intros Hcal. destruct e as [job|jc gs job| | |i]; simpl; rewrite ?Hcal; auto.
  - unfold caller_step. rewrite Hcal. unfold IsBusy.
    destruct (Z.ltb_spec (finishedLabel s) (currentLabel s)); [left|right]; done.
  - left. destruct (worker_step_frame i s) as [-> ->]. done.
Qed.

Lemma Wait_returns_spec (evs : list Event) (s s' : State) :
  caller s = InWait -> Wait_returns evs s = Some s' ->
  caller s' = Outside /\ currentLabel s' = currentLabel s /\
  currentLabel s' <= finishedLabel s'.
Proof.
  revert s. induction evs as [|e evs IH]; intros s Hcal Hret.
  - simpl in Hret. by rewrite Hcal in Hret.
  - simpl in Hret. rewrite Hcal in Hret.
    destruct (step_in_Wait s e Hcal) as [[Hcal' Hc]|[Hexit Hle]].
    + rewrite <- Hc. by apply IH.
    + rewrite Hexit in Hret. destruct evs; simpl in Hret; injection Hret as <-; done.
Qed.

(** C6. [IsBusy()] returns true exactly when [finishedLabel] is
    strictly less than [currentLabel], and it leaves the state as it
    found it. *)
Theorem IsBusy_spec (s : State) :
  ((IsBusy s).1 = true <-> finishedLabel s < currentLabel s) /\
  (IsBusy s).2 = s.
Proof. split; [apply Z.ltb_lt|done]. Qed.

(** C8. [IsBusy()] returns false in the state after static
    initialisation and in the state after [Initialize()]; and when a
    call of [Wait()] made with [currentLabel = c] returns, after any
    events in between, [IsBusy()] returns false there, [currentLabel]
    is still [c] and [finishedLabel] is at least [c]. *)
Theorem IsBusy_false_initially_and_after_Wait (numCores : Z) :
  (IsBusy initial_state).1 = false /\
  (IsBusy (Initialize numCores initial_state)).1 = false /\
  forall (s s' : State) (evs : list Event),
    caller s = Outside ->
    Wait_returns evs (step s CallWait) = Some s' ->
    (IsBusy s').1 = false /\
    caller s' = Outside /\
    currentLabel s' = currentLabel s /\
    currentLabel s <= finishedLabel s'.
Proof.
  split_and!; try done.
  intros s s' evs Hout Hret. simpl in Hret. rewrite Hout in Hret.
  apply Wait_returns_spec in Hret as (Hcal & Hc & Hle); [|done].
  simpl in Hc. split_and!; try done; [|lia].
  simpl. apply Z.ltb_ge. lia.
Qed.

(** C10. [Initialize()] sets [finishedLabel] to 0 and leaves
    [currentLabel], the queue and the submitting thread as they were;
    so in a state where all of [currentLabel > 0] submitted jobs are
    finished, and [IsBusy()] is false, [IsBusy()] is true after
    another [Initialize()]. *)
Theorem Initialize_resets_finishedLabel_only (numCores : Z) (s : State) :
  finishedLabel s = currentLabel s -> 0 < currentLabel s ->
  finishedLabel (Initialize numCores s) = 0 /\
  currentLabel (Initialize numCores s) = currentLabel s /\
  jobPool (Initialize numCores s) = jobPool s /\
  caller (Initialize numCores s) = caller s /\
  effects (Initialize numCores s) = effects s /\
  (IsBusy s).1 = false /\
  (IsBusy (Initialize numCores s)).1 = true.
Proof.
  intros Heq Hpos. split_and!; try done.
  - simpl. apply Z.ltb_ge. lia.
  - simpl. apply Z.ltb_lt. lia.
Qed.

Lemma IsBusy_false_after_Wait_witness :
  caller waiting_start = Outside /\
  (IsBusy waiting_start).1 = true /\
  Wait_returns waiting_events (step waiting_start CallWait)
    = Some (run (CallWait :: waiting_events) waiting_start) /\
  (IsBusy (run (CallWait :: waiting_events) waiting_start)).1 = false.
Proof.
  assert (caller waiting_start = Outside) as Hout by reflexivity.
  assert (Wait_returns waiting_events (step waiting_start CallWait)
          = Some (run (CallWait :: waiting_events) waiting_start)) as Hret
    by reflexivity.
  split_and!; [exact Hout|reflexivity|exact Hret|].
  destruct (IsBusy_false_initially_and_after_Wait 1) as (_ & _ & H).
  exact (proj1 (H _ _ _ Hout Hret)).
Defined.

Lemma Initialize_resets_finishedLabel_only_witness :
  finishedLabel (run submit_and_finish (Initialize 1 initial_state)) = 1 /\
  currentLabel (run submit_and_finish (Initialize 1 initial_state)) = 1 /\
  (IsBusy (Initialize 1 (run submit_and_finish (Initialize 1 initial_state)))).1 = true.
Proof.
  split_and!; [reflexivity..|].
  apply (Initialize_resets_finishedLabel_only 1
           (run submit_and_finish (Initialize 1 initial_state)));
    [reflexivity|reflexivity].
Defined.

(** The labels are 64-bit counters: after [wrap_schedule], which submits
    [2^64] jobs, [currentLabel] has wrapped to 0 while [finishedLabel] is
    [2^64 - 1]. What is proved below of [finishedLabel <= currentLabel]
    is for runs that submit fewer than [2^64] jobs. *)
Lemma completed_exceeds_submitted_after_wrap :
  Forall valid_event wrap_schedule /\
  currentLabel (run wrap_schedule (Initialize 1 initial_state)) = 0 /\
  finishedLabel (run wrap_schedule (Initialize 1 initial_state)) = 2 ^ 64 - 1 /\
  ~ (finishedLabel (run wrap_schedule (Initialize 1 initial_state))
     <= currentLabel (run wrap_schedule (Initialize 1 initial_state))).
Proof.
  unfold wrap_schedule.
  pose proof (labels_after_repeat (Z.to_nat (2 ^ 64 - 1))) as Hlab.
  pose proof (valid_repeat (Z.to_nat (2 ^ 64 - 1))) as Hv.
  assert (Z.of_nat (Z.to_nat (2 ^ 64 - 1)) = 2 ^ 64 - 1) as HN
    by (apply Z2Nat.id; lia).
  cbv zeta in Hlab. revert Hlab Hv HN.
  generalize (Z.to_nat (2 ^ 64 - 1)). intros N [Hc Hf] Hv HN.
  rewrite HN in Hc, Hf.
  change (wrap64 (2 ^ 64 - 1 + 1)) with 0 in Hc.
  change (wrap64 (2 ^ 64 - 1)) with (2 ^ 64 - 1) in Hf.
  split_and!.
  - apply Forall_app. split; [exact Hv|]. repeat constructor.
  - exact Hc.
  - exact Hf.
  - rewrite Hc, Hf. lia.
Qed.

End LabelClaims.

(** * Further properties of the ring buffer *)

Section RingBufferMore.
Context {T : Type}.
Variable capacity : Z.
Hypothesis capacity_pos : 0 < capacity.

Implicit Types (q : ThreadSafeRingBuffer T) (x item : T) (h : History (T:=T)).

Lemma indices_apply_op h (o : QueueOp T) :
  head (queue h) = Z.of_nat (length (pushed h)) mod capacity ->
  tail (queue h) = Z.of_nat (length (popped h)) mod capacity ->
  let h' := apply_op capacity h o in
  head (queue h') = Z.of_nat (length (pushed h')) mod capacity /\
  tail (queue h') = Z.of_nat (length (popped h')) mod capacity.
Proof using capacity_pos.
  intros Hh Ht. destruct o as [x|x0]; unfold apply_op.
  - destruct (decide ((head (queue h) + 1) mod capacity = tail (queue h))) as [Hfull|Hroom].
    + rewrite push_back_false by done. by split.
    + rewrite push_back_true by done. cbn [queue pushed popped head tail].
      split; [|done]. rewrite length_app, Hh. simpl length.
      rewrite Zplus_mod_idemp_l. f_equal. lia.
  - destruct (decide (tail (queue h) = head (queue h))) as [Hempty|Hsome].
    + rewrite pop_front_false by done. by split.
    + rewrite pop_front_true by done. cbn [queue pushed popped head tail].
      split; [done|]. rewrite length_app, Ht. simpl length.
      rewrite Zplus_mod_idemp_l. f_equal. lia.
Qed.

Lemma indices_fold (ops : list (QueueOp T)) h :
  head (queue h) = Z.of_nat (length (pushed h)) mod capacity ->
  tail (queue h) = Z.of_nat (length (popped h)) mod capacity ->
  let h' := fold_left (apply_op capacity) ops h in
  head (queue h') = Z.of_nat (length (pushed h')) mod capacity /\
  tail (queue h') = Z.of_nat (length (popped h')) mod capacity.
Proof using capacity_pos.
  revert h. induction ops as [|o ops IH]; intros h Hh Ht; [by split|].
  simpl. destruct (indices_apply_op h o Hh Ht) as [Hh' Ht']. by apply IH.
Qed.

(** X1. After any sequence of [push_back] and [pop_front] calls on the
    initially empty queue, [head] is the number of successful pushes
    modulo [capacity] and [tail] is the number of successful pops modulo
    [capacity]: each index goes round the ring once per [capacity]
    successes. *)
Theorem indices_count_successes (dflt : T) (ops : list (QueueOp T)) :
  head (queue (run_ops capacity dflt ops))
    = Z.of_nat (length (pushed (run_ops capacity dflt ops))) mod capacity /\
  tail (queue (run_ops capacity dflt ops))
    = Z.of_nat (length (popped (run_ops capacity dflt ops))) mod capacity.
Proof using capacity_pos.
  apply indices_fold; simpl; by rewrite Z.mod_0_l by lia.
Qed.

(** X2. After any sequence of calls on the initially empty queue, both
    indices address a slot of the array and the array still has
    [capacity] slots: the write [data[head]] of [push_back] and the read
    [data[tail]] of [pop_front] stay inside the array. *)
Theorem indices_stay_in_bounds (dflt : T) (ops : list (QueueOp T)) :
  0 <= head (queue (run_ops capacity dflt ops)) < capacity /\
  0 <= tail (queue (run_ops capacity dflt ops)) < capacity /\
  Z.of_nat (length (data (queue (run_ops capacity dflt ops)))) = capacity /\
  is_Some (data (queue (run_ops capacity dflt ops))
             !! Z.to_nat (head (queue (run_ops capacity dflt ops)))) /\
  is_Some (data (queue (run_ops capacity dflt ops))
             !! Z.to_nat (tail (queue (run_ops capacity dflt ops)))).
Proof using capacity_pos.
  destruct (history_inv_run_ops capacity capacity_pos dflt ops) as [(Hh & Ht & Hlen) _].
  split_and!; try lia; apply lookup_lt_is_Some_2; lia.
Qed.

(** X3. Pushing onto a well-formed queue that is not full and then
    popping: the pop succeeds and hands out the oldest item queued
    before the push, or the pushed item itself if the queue was empty,
    and what stays queued is the rest followed by the pushed item (nothing,
    if the queue was empty). *)
Theorem push_then_pop x item q :
  wf capacity q -> (head q + 1) mod capacity <> tail q ->
  let r := pop_front capacity item (push_back capacity x q).2 in
  r.1.1 = true /\
  r.1.2 = hd x (contents capacity q) /\
  contents capacity r.2 = tl (contents capacity q ++ [x]) /\
  (head q = tail q -> r.1.2 = x /\ contents capacity r.2 = [] /\
                      head r.2 = tail r.2).
Proof using capacity_pos.
  intros Hwf Hroom r.
  pose proof (wf_push_back capacity capacity_pos x q Hwf) as Hwf1.
  pose proof (contents_push_back capacity capacity_pos x q Hwf Hroom) as Hc1.
  assert (tail (push_back capacity x q).2 <> head (push_back capacity x q).2) as Hne.
  { rewrite push_back_true by done. simpl. congruence. }
  pose proof (contents_pop_front capacity capacity_pos item _ Hwf1 Hne) as Hc2.
  fold r in Hc2. rewrite Hc1 in Hc2.
  assert (r.1.1 = true) as Hok.
  { subst r. by rewrite pop_front_true. }
  assert (r.1.2 = hd x (contents capacity q)
          /\ contents capacity r.2 = tl (contents capacity q ++ [x])) as [Hitem Hrest].
  { rewrite Hc2. simpl. split; [|done].
    destruct (contents capacity q); simpl in Hc2 |- *; congruence. }
  split_and!; try done.
  intros Hempty.
  assert (contents capacity q = []) as Hnil.
  { apply length_zero_iff_nil.
    pose proof (length_contents capacity capacity_pos q Hwf) as Hlen.
    apply (empty_iff_count capacity capacity_pos q Hwf) in Hempty. lia. }
  rewrite Hnil in Hitem, Hrest. simpl in Hitem, Hrest. split_and!; try done.
  subst r. rewrite pop_front_true by done. cbn [snd head tail].
  rewrite push_back_true by done. cbn [snd head tail]. by rewrite Hempty.
Qed.

End RingBufferMore.

Lemma indices_count_successes_witness :
  0 < 256 /\
  head (queue (run_ops 256 0%nat (replicate 300 (Push 1%nat) ++ [Pop 0; Pop 0; Push 2]))%nat)
  = 0.
Proof.
  split; [lia|].
  rewrite (proj1 (indices_count_successes 256 ltac:(lia) 0%nat
                    (replicate 300 (Push 1%nat) ++ [Pop 0; Pop 0; Push 2])%nat)).
  vm_compute. reflexivity.
Defined.

Lemma indices_stay_in_bounds_witness :
  0 < 256 /\
  0 <= tail (queue (run_ops 256 0%nat (replicate 300 (Push 1%nat) ++ [Pop 0; Pop 0]))%nat)
    < 256.
Proof.
  split; [lia|].
  apply (indices_stay_in_bounds 256 ltac:(lia) 0%nat
           (replicate 300 (Push 1%nat) ++ [Pop 0; Pop 0])%nat).
Defined.

Lemma push_then_pop_witness :
  wf 256 (push_back 256 5%nat (empty_buffer 256 0%nat)).2 /\
  (pop_front 256 0%nat
     (push_back 256 6%nat (push_back 256 5%nat (empty_buffer 256 0%nat)).2).2).1.2
  = 5%nat.
Proof.
  assert (wf 256 (push_back 256 5%nat (empty_buffer 256 0%nat)).2) as Hwf.
  { apply wf_push_back; [lia|]. apply wf_empty_buffer. lia. }
  split; [exact Hwf|].
  destruct (push_then_pop 256 ltac:(lia) 6%nat 0%nat _ Hwf) as (_ & Hitem & _).
  - vm_compute. congruence.
  - exact Hitem.
Defined.

(** * Further properties of the job system *)

Section StepShapes.

(** What a turn of the submitting thread can be: nothing or a poll; a
    successful push of the next job it has to push; or the return of the
    call, when nothing is left to push (and, in [Wait], the system is not
    busy). *)
Lemma caller_step_cases (s : State) :
  (caller_step s = s \/ caller_step s = notify_one s) \/
  (exists job rest c',
      caller_jobs (caller s) = job :: rest /\
      (head (jobPool s) + 1) mod jobPool_capacity <> tail (jobPool s) /\
      (caller_ok (caller s) -> caller_jobs c' = rest) /\
      (match c' with InExecute _ => False | _ => True end) /\
      caller_step s
      = notify_one (set_caller c'
          (set_jobPool (push_back jobPool_capacity job (jobPool s)).2 s))) \/
  (caller_jobs (caller s) = [] /\ caller_step s = set_caller Outside s).
Proof.
  unfold caller_step.
  destruct (caller s) as [|job|jc gs job gc gi|] eqn:Hcal.
  - left. by left.
  - destruct (decide ((head (jobPool s) + 1) mod jobPool_capacity = tail (jobPool s)))
      as [Hfull|Hroom].
    + rewrite push_back_false by done. left. by right.
    + right. left. exists job, [], Outside.
      rewrite push_back_true by done. done.
  - destruct (Z.ltb_spec gi gc) as [Hlt|Hge].
    + destruct (decide ((head (jobPool s) + 1) mod jobPool_capacity = tail (jobPool s)))
        as [Hfull|Hroom].
      * rewrite push_back_false by done. left. by right.
      * right. left.
        exists (JobGroup jc gs job gi),
               (JobGroup jc gs job <$> seqZ (gi + 1) (gc - (gi + 1))),
               (InDispatch jc gs job gc (wrap32 (gi + 1))).
        rewrite push_back_true by done. split_and!; try done.
        -- cbn [caller_jobs]. rewrite (seqZ_cons gi) by lia.
           cbn [fmap list_fmap]. do 3 f_equal; lia.
        -- intros [Hgi Hgc]. cbn [caller_jobs].
           by rewrite wrap32_small by (unfold is_uint32; lia).
    + right. right. split; [|done]. cbn [caller_jobs]. by rewrite seqZ_nil by lia.
  - unfold IsBusy. destruct (finishedLabel s <? currentLabel s).
    + left. by right.
    + right. by right.
Qed.

Lemma length_wake_one (ws : list Worker) : length (wake_one ws) = length ws.
Proof.
  induction ws as [|[p j] ws IH]; [done|]. simpl. destruct p; simpl; by rewrite ?IH.
Qed.

Lemma workers_caller_step (s : State) :
  workers (caller_step s) = workers s \/ workers (caller_step s) = wake_one (workers s).
Proof.
  destruct (caller_step_cases s) as [[->| ->]|[(job & rest & c' & _ & _ & _ & _ & ->)|[_ ->]]];
    auto.
Qed.

Lemma pool_step (s : State) (e : Event) :
  length (workers (step s e)) = length (workers s) /\
  numThreads (step s e) = numThreads s.
Proof.
  destruct e as [job|jc gs job| | |i]; simpl.
  - by destruct (caller s).
  - destruct (caller s); try done. unfold Dispatch_enter.
    by destruct ((jc =? 0) || (gs =? 0)).
  - by destruct (caller s).
  - split.
    + destruct (workers_caller_step s) as [-> | ->]; [done|apply length_wake_one].
    + destruct (caller_step_cases s)
        as [[->| ->]|[(job & rest & c' & _ & _ & _ & _ & ->)|[_ ->]]]; done.
  - unfold worker_step. destruct (workers s !! i) as [[p j]|]; [|done].
    destruct p; cbn [pc job_var]; try (simpl; by rewrite length_insert).
    unfold pop_front. destruct (negb _); simpl; by rewrite length_insert.
Qed.

Lemma pool_run (evs : list Event) (s : State) :
  length (workers (run evs s)) = length (workers s) /\
  numThreads (run evs s) = numThreads s.
Proof.
  revert s. induction evs as [|e evs IH]; intros s; [done|].
  simpl. destruct (IH (step s e)) as [-> ->]. apply pool_step.
Qed.

Lemma wf_jobPool_step (s : State) (e : Event) :
  wf jobPool_capacity (jobPool s) -> wf jobPool_capacity (jobPool (step s e)).
Proof.
  intros Hq. destruct e as [job|jc gs job| | |i]; simpl.
  - by destruct (caller s).
  - destruct (caller s); try done. unfold Dispatch_enter.
    by destruct ((jc =? 0) || (gs =? 0)).
  - by destruct (caller s).
  - destruct (caller_step_cases s)
      as [[->| ->]|[(job & rest & c' & _ & _ & _ & _ & ->)|[_ ->]]]; try done.
    simpl. by apply wf_push_back.
  - unfold worker_step. destruct (workers s !! i) as [[p j]|]; [|done].
    destruct p; cbn [pc job_var]; try done.
    pose proof (wf_pop_front _ capacity_256_pos j _ Hq) as Hq'.
    destruct (pop_front jobPool_capacity j (jobPool s)) as [[ok item] q'].
    by destruct ok.
Qed.

Lemma wf_jobPool_run (evs : list Event) (s : State) :
  wf jobPool_capacity (jobPool s) -> wf jobPool_capacity (jobPool (run evs s)).
Proof.
  revert s. induction evs as [|e evs IH]; intros s Hq; [done|].
  simpl. by apply IH, wf_jobPool_step.
Qed.

End StepShapes.

(** ** The worker pool and what workers call *)

Section WorkerPool.

Lemma callable_InDispatch (jc gs : Z) (job : nat) (gc gi : Z) :
  Forall callable (caller_jobs (InDispatch jc gs job gc gi)).
Proof. cbn [caller_jobs]. apply Forall_fmap, Forall_forall. intros k _. done. Qed.

Lemma callable_Dispatch_jobs (jc gs : Z) (job : nat) :
  Forall callable (Dispatch_jobs jc gs job).
Proof.
  rewrite Dispatch_jobs_eq. destruct ((jc =? 0) || (gs =? 0)); [constructor|].
  apply Forall_fmap, Forall_forall. intros k _. done.
Qed.

Lemma callable_wake_one (ws : list Worker) :
  Forall (fun w => at_call w = true -> callable (job_var w)) ws ->
  Forall (fun w => at_call w = true -> callable (job_var w)) (wake_one ws).
Proof.
  induction 1 as [|[p j] ws Hw Hws IH]; [constructor|].
  simpl. destruct p; simpl; constructor; try done.
Qed.

Lemma all_callable_notify_one (s : State) : all_callable s -> all_callable (notify_one s).
Proof.
  intros (Hq & Hc & Hw). split_and!; try done. by apply callable_wake_one.
Qed.

Lemma all_callable_step (s : State) (e : Event) :
  wf jobPool_capacity (jobPool s) -> callable_event e ->
  all_callable s -> all_callable (step s e).
Proof.
  intros Hwf He Hall. pose proof Hall as (Hq & Hc & Hw).
  destruct e as [job|jc gs job| | |i]; simpl.
  - destruct (caller s); try done. split_and!; try done.
    cbn. by constructor.
  - destruct (caller s) eqn:Hcal; try done. unfold Dispatch_enter.
    destruct ((jc =? 0) || (gs =? 0)); [done|].
    split_and!; try done. apply callable_InDispatch.
  - destruct (caller s); try done.
  - destruct (caller_step_cases s)
      as [[->| ->]|[(job & rest & c' & Hjobs & Hroom & _ & Hc' & ->)|[_ ->]]]; try done.
    + by apply all_callable_notify_one.
    + apply all_callable_notify_one. rewrite Hjobs in Hc.
      apply Forall_cons in Hc as [Hjob _]. split_and!; try done.
      * cbn [jobPool set_caller set_jobPool].
        rewrite (contents_push_back _ capacity_256_pos) by done.
        apply Forall_app. split; [done|]. by constructor.
      * cbn [caller set_caller]. destruct c'; try done; try constructor.
        apply callable_InDispatch.
  - unfold worker_step. destruct (workers s !! i) as [[p j]|] eqn:Hi; [|done].
    destruct p; cbn [pc job_var].
    + destruct (decide (tail (jobPool s) = head (jobPool s))) as [He'|Hne].
      * rewrite pop_front_false by done. split_and!; try done.
        cbn [workers set_workers]. by apply Forall_insert.
      * pose proof (contents_pop_front _ capacity_256_pos j _ Hwf Hne) as Hcont.
        rewrite Hcont in Hq. apply Forall_cons in Hq as [Hitem Hrest].
        destruct (pop_front jobPool_capacity j (jobPool s)) as [[ok item] q'] eqn:Hpop.
        rewrite pop_front_true in Hpop by done. injection Hpop as <- <- <-.
        split_and!; try done. cbn [workers set_workers set_jobPool].
        by apply Forall_insert.
    + split_and!; try done. cbn [workers set_workers]. by apply Forall_insert.
    + split_and!; try done. cbn [workers set_workers set_effects]. by apply Forall_insert.
    + split_and!; try done. cbn [workers set_workers set_finishedLabel].
      by apply Forall_insert.
Qed.

Lemma all_callable_run (evs : list Event) (s : State) :
  wf jobPool_capacity (jobPool s) -> Forall callable_event evs ->
  all_callable s -> all_callable (run evs s).
Proof.
  revert s. induction evs as [|e evs IH]; intros s Hwf Hev Hall; [done|].
  apply Forall_cons in Hev as [He Hev]. simpl.
  apply IH; [by apply wf_jobPool_step|done|by apply all_callable_step].
Qed.

Lemma all_callable_initial (numCores : Z) :
  all_callable (Initialize numCores initial_state).
Proof.
  split_and!.
  - cbn [Initialize jobPool set_finishedLabel initial_state].
    rewrite (contents_empty_buffer _ capacity_256_pos). constructor.
  - constructor.
  - cbn [Initialize workers set_finishedLabel initial_state app].
    apply Forall_replicate. done.
Qed.

(** X4. [Initialize()] creates [max(1, numCores)] workers, at least one
    even when [hardware_concurrency()] returns 0, beside the workers
    that exist already (a second call adds a second pool on the same
    queue); and no call or turn of any thread afterwards creates or ends
    a worker or changes [numThreads]. *)
Theorem worker_pool_size (numCores : Z) (s : State) (evs : list Event) :
  1 <= numThreads (run evs (Initialize numCores s)) /\
  numThreads (run evs (Initialize numCores s)) = Z.max 1 numCores /\
  Z.of_nat (length (workers (run evs (Initialize numCores s))))
  = Z.of_nat (length (workers s)) + Z.max 1 numCores.
Proof.
  destruct (pool_run evs (Initialize numCores s)) as [-> ->].
  cbn [Initialize numThreads workers set_finishedLabel].
  rewrite length_app, length_replicate. lia.
Qed.

(** X5. If [Execute] is never given an empty [std::function], then in
    every state reached from the initialised system a worker that is
    about to call [job()] holds a job that is not an empty function: an
    argument of [Execute] or a closure of [Dispatch]. The slots of the
    queue start out as empty functions, and none of those is ever handed
    to a worker. *)
Theorem no_empty_function_called
    (numCores : Z) (evs : list Event) (i : nat) (w : Worker) :
  Forall callable_event evs ->
  workers (run evs (Initialize numCores initial_state)) !! i = Some w ->
  pc w = AtCall ->
  job_var w <> EmptyFunction.
Proof.
  intros Hev Hi Hpc.
  assert (wf jobPool_capacity (jobPool (Initialize numCores initial_state))) as Hwf.
  { apply (wf_empty_buffer _ capacity_256_pos). }
  destruct (all_callable_run evs _ Hwf Hev (all_callable_initial numCores))
    as (_ & _ & Hw).
  rewrite Forall_lookup in Hw. apply (Hw i w Hi). unfold at_call. by rewrite Hpc.
Qed.

End WorkerPool.

(** ** From submission to execution *)

Section HandOff.

Lemma caller_jobs_Dispatch_enter (jc gs : Z) (job : nat) (s : State) :
  caller s = Outside ->
  caller_jobs (caller (Dispatch_enter jc gs job s)) = Dispatch_jobs jc gs job.
Proof.
  intros Hout. rewrite Dispatch_jobs_eq. unfold Dispatch_enter.
  destruct ((jc =? 0) || (gs =? 0)); [by rewrite Hout|].
  cbn [caller set_caller caller_jobs]. by rewrite Z.sub_0_r.
Qed.

Lemma jobPool_Dispatch_enter (jc gs : Z) (job : nat) (s : State) :
  jobPool (Dispatch_enter jc gs job s) = jobPool s /\
  workers (Dispatch_enter jc gs job s) = workers s /\
  effects (Dispatch_enter jc gs job s) = effects s /\
  finishedLabel (Dispatch_enter jc gs job s) = finishedLabel s.
Proof. unfold Dispatch_enter. by destruct ((jc =? 0) || (gs =? 0)). Qed.

(** One step: what a worker takes, then what is queued, then what is
    still to push, is what was queued, then what was still to push,
    then what the step submits. *)
Lemma handoff_step (s : State) (e : Event) :
  wf jobPool_capacity (jobPool s) -> caller_ok (caller s) ->
  taken_by s e ++ contents jobPool_capacity (jobPool (step s e))
    ++ caller_jobs (caller (step s e))
  = contents jobPool_capacity (jobPool s) ++ caller_jobs (caller s)
    ++ submitted_by s e.
Proof.
  intros Hwf Hok. destruct e as [job|jc gs job| | |i]; unfold submitted_by; simpl.
  - destruct (caller s) eqn:Hcal; rewrite ?Hcal, ?app_nil_r; done.
  - destruct (caller s) eqn:Hcal; rewrite ?Hcal, ?app_nil_r; try done.
    destruct (jobPool_Dispatch_enter jc gs job s) as (-> & _).
    by rewrite caller_jobs_Dispatch_enter.
  - destruct (caller s) eqn:Hcal; rewrite ?Hcal, ?app_nil_r; done.
  - assert (match caller s with Outside | _ => @nil Job end = []) as ->
      by (by destruct (caller s)).
    rewrite app_nil_r. by apply caller_step_pushes_in_order.
  - assert (match caller s with Outside | _ => @nil Job end = []) as ->
      by (by destruct (caller s)).
    rewrite app_nil_r. unfold worker_step.
    destruct (workers s !! i) as [[p j]|] eqn:Hi; [|done].
    destruct p; cbn [pc job_var]; try done.
    destruct (decide (tail (jobPool s) = head (jobPool s))) as [He|Hne].
    + rewrite pop_front_false by done. done.
    + pose proof (contents_pop_front _ capacity_256_pos j _ Hwf Hne) as Hcont.
      rewrite Hcont. rewrite pop_front_true by done. done.
Qed.

Lemma handoff_run (evs : list Event) (s : State) :
  Forall valid_event evs -> label_inv s ->
  observe taken_by evs s ++ contents jobPool_capacity (jobPool (run evs s))
    ++ caller_jobs (caller (run evs s))
  = contents jobPool_capacity (jobPool s) ++ caller_jobs (caller s)
    ++ observe submitted_by evs s.
Proof.
  revert s. induction evs as [|e evs IH]; intros s Hv Hinv.
  - simpl. by rewrite app_nil_r.
  - apply Forall_cons in Hv as [He Hv]. simpl.
    pose proof (label_inv_step s e He Hinv) as Hinv'.
    destruct Hinv as (_ & _ & Hwf & Hok & _).
    rewrite <- app_assoc, (IH _ Hv Hinv').
    rewrite !app_assoc. f_equal. rewrite <- !app_assoc.
    by apply handoff_step.
Qed.

Lemma effects_step (s : State) (e : Event) :
  effects (step s e) = effects s ++ mjoin (run_job <$> ran_by s e).
Proof.
  destruct e as [job|jc gs job| | |i]; simpl; rewrite ?app_nil_r.
  - by destruct (caller s).
  - destruct (caller s); try done. by destruct (jobPool_Dispatch_enter jc gs job s) as (_ & _ & -> & _).
  - by destruct (caller s).
  - destruct (caller_step_cases s)
      as [[->| ->]|[(job & rest & c' & _ & _ & _ & _ & ->)|[_ ->]]]; done.
  - unfold worker_step. destruct (workers s !! i) as [[p j]|]; [|by rewrite app_nil_r].
    destruct p; cbn [pc job_var]; simpl; rewrite ?app_nil_r; try done.
    unfold pop_front. by destruct (negb _).
Qed.

Lemma effects_run (evs : list Event) (s : State) :
  effects (run evs s) = effects s ++ mjoin (run_job <$> observe ran_by evs s).
Proof.
  revert s. induction evs as [|e evs IH]; intros s; [by rewrite app_nil_r|].
  simpl. rewrite IH, effects_step, fmap_app, join_app, app_assoc. done.
Qed.

Lemma about_to_run_cons (w : Worker) (ws : list Worker) :
  about_to_run (w :: ws)
  = (if at_call w then [job_var w] else []) ++ about_to_run ws.
Proof.
  unfold about_to_run. rewrite filter_cons. by destruct (at_call w).
Qed.

Lemma about_to_run_insert (ws : list Worker) (i : nat) (w w' : Worker) :
  ws !! i = Some w ->
  exists R,
    about_to_run ws ≡ₚ (if at_call w then [job_var w] else []) ++ R /\
    about_to_run (<[i := w']> ws) ≡ₚ (if at_call w' then [job_var w'] else []) ++ R.
Proof.
  revert i. induction ws as [|w0 ws IH]; intros i Hi; [done|].
  destruct i as [|i]; simpl in Hi |- *.
  - injection Hi as ->. exists (about_to_run ws). by rewrite !about_to_run_cons.
  - destruct (IH i Hi) as (R & H1 & H2).
    exists ((if at_call w0 then [job_var w0] else []) ++ R).
    rewrite !about_to_run_cons, H1, H2. split; apply Permutation_app_swap_app.
Qed.

Lemma about_to_run_wake_one (ws : list Worker) :
  about_to_run (wake_one ws) = about_to_run ws.
Proof.
  induction ws as [|[p j] ws IH]; [done|]. simpl.
  destruct p; simpl; rewrite ?about_to_run_cons; simpl; by rewrite ?IH.
Qed.

(** One step: a job taken by a worker joins those about to run; a job
    run leaves them. *)
Lemma running_step (s : State) (e : Event) :
  taken_by s e ++ about_to_run (workers s)
  ≡ₚ ran_by s e ++ about_to_run (workers (step s e)).
Proof.
  destruct e as [job|jc gs job| | |i]; simpl.
  - by destruct (caller s).
  - destruct (caller s); try done.
    by destruct (jobPool_Dispatch_enter jc gs job s) as (_ & -> & _).
  - by destruct (caller s).
  - destruct (workers_caller_step s) as [-> | ->]; [done|].
    by rewrite about_to_run_wake_one.
  - unfold worker_step. destruct (workers s !! i) as [[p j]|] eqn:Hi; [|done].
    destruct p; cbn [pc job_var].
    + destruct (decide (tail (jobPool s) = head (jobPool s))) as [He|Hne].
      * rewrite pop_front_false by done. cbn [workers set_workers].
        destruct (about_to_run_insert _ _ _ (mkWorker Asleep j) Hi) as (R & -> & ->).
        done.
      * rewrite pop_front_true by done. cbn [workers set_workers set_jobPool].
        destruct (about_to_run_insert _ _ _
                    (mkWorker AtCall (default j (data (jobPool s)
                                                  !! Z.to_nat (tail (jobPool s))))) Hi)
          as (R & -> & ->).
        done.
    + cbn [workers set_workers].
      destruct (about_to_run_insert _ _ _ (mkWorker AtPop j) Hi) as (R & -> & ->). done.
    + cbn [workers set_workers set_effects].
      destruct (about_to_run_insert _ _ _ (mkWorker AtFetchAdd j) Hi) as (R & -> & ->).
      done.
    + cbn [workers set_workers set_finishedLabel].
      destruct (about_to_run_insert _ _ _ (mkWorker AtPop j) Hi) as (R & -> & ->). done.
Qed.

Lemma running_run (evs : list Event) (s : State) :
  observe taken_by evs s ++ about_to_run (workers s)
  ≡ₚ observe ran_by evs s ++ about_to_run (workers (run evs s)).
Proof.
  revert s. induction evs as [|e evs IH]; intros s; [done|].
  simpl. rewrite <- (app_assoc (ran_by s e)), <- IH.
  rewrite (Permutation_app_swap_app (ran_by s e)), <- running_step.
  rewrite <- !app_assoc. apply Permutation_app_swap_app.
Qed.

Lemma about_to_run_idle (ws : list Worker) :
  Forall (fun w => holds_job w = false) ws -> about_to_run ws = [].
Proof.
  induction 1 as [|[p j] ws Hw Hws IH]; [done|].
  rewrite about_to_run_cons, IH. by destruct p.
Qed.

(** Every job submitted so far is exactly one of: run, held by a worker
    about to run it, queued, or still to be pushed. *)
Lemma accounting_run (numCores : Z) (evs : list Event) :
  Forall valid_event evs ->
  observe ran_by evs (Initialize numCores initial_state)
    ++ about_to_run (workers (run evs (Initialize numCores initial_state)))
    ++ contents jobPool_capacity (jobPool (run evs (Initialize numCores initial_state)))
    ++ caller_jobs (caller (run evs (Initialize numCores initial_state)))
  ≡ₚ observe submitted_by evs (Initialize numCores initial_state).
Proof.
  intros Hv.
  pose proof (handoff_run evs _ Hv (label_inv_initial numCores)) as Hh.
  pose proof (running_run evs (Initialize numCores initial_state)) as Hr.
  rewrite (about_to_run_idle (workers (Initialize numCores initial_state))) in Hr.
  2:{ cbn [Initialize workers set_finishedLabel initial_state app].
      by apply Forall_replicate. }
  rewrite app_nil_r in Hr.
  assert (contents jobPool_capacity (jobPool (Initialize numCores initial_state)) = [])
    as Hc0 by apply (contents_empty_buffer _ capacity_256_pos).
  rewrite Hc0 in Hh. cbn [app] in Hh.
  change (caller_jobs (caller (Initialize numCores initial_state))) with (@nil Job) in Hh.
  cbn [app] in Hh. rewrite <- Hh, Hr, <- !app_assoc. done.
Qed.

End HandOff.

Section ExactlyOnce.

Lemma observe_submitted_turns (evs : list Event) (s : State) :
  Forall is_turn evs -> observe submitted_by evs s = [].
Proof.
  revert s. induction evs as [|e evs IH]; intros s Hev; [done|].
  apply Forall_cons in Hev as [He Hev]. simpl. rewrite (IH _ Hev), app_nil_r.
  unfold submitted_by. destruct e; try done; by destruct (caller s).
Qed.

Lemma valid_turns (evs : list Event) : Forall is_turn evs -> Forall valid_event evs.
Proof. intros H. eapply Forall_impl; [exact H|]. intros e He. by destruct e. Qed.

(** The calls made by the closures of [Dispatch], for all arguments:
    every index once when the group count does not wrap around, none
    otherwise. *)
Lemma Dispatch_calls_total (jc gs : Z) (job : nat) :
  is_uint32 jc -> is_uint32 gs ->
  mjoin (run_job <$> Dispatch_jobs jc gs job)
  = if (0 <? gs) && (jc + gs - 1 <? 2 ^ 32)
    then (fun i => InvokedRanged job (mkArgs i (i / gs))) <$> seqZ 0 jc
    else [].
Proof.
  intros Hjc Hgs. unfold is_uint32 in *.
  destruct (Z.ltb_spec 0 gs) as [Hg|Hg]; cbn [andb].
  - destruct (Z.ltb_spec (jc + gs - 1) (2 ^ 32)) as [Hsum|Hsum].
    + destruct (decide (jc = 0)) as [->|Hj].
      * rewrite Dispatch_jobs_eq. done.
      * apply (Dispatch_covers_without_wrap jc gs job); lia.
    + rewrite Dispatch_jobs_eq.
      destruct ((jc =? 0) || (gs =? 0)); [done|].
      rewrite groupCount_of_overflow by (unfold is_uint32; lia). done.
  - assert (gs = 0) as -> by lia. rewrite Dispatch_jobs_eq.
    by rewrite orb_true_r.
Qed.

(** X6. In every run of the initialised system, the jobs that workers
    have taken out of the queue, in the order they took them, followed
    by the queued jobs and the jobs the submitting thread has still to
    push, are exactly the jobs submitted by [Execute] and [Dispatch], in
    the order of submission: nothing is lost, duplicated or reordered on
    the way to the workers. *)
Theorem jobs_taken_in_submission_order (numCores : Z) (evs : list Event) :
  Forall valid_event evs ->
  observe submitted_by evs (Initialize numCores initial_state)
  = observe taken_by evs (Initialize numCores initial_state)
    ++ contents jobPool_capacity (jobPool (run evs (Initialize numCores initial_state)))
    ++ caller_jobs (caller (run evs (Initialize numCores initial_state))).
Proof.
  intros Hv. rewrite (handoff_run evs _ Hv (label_inv_initial numCores)).
  cbn [Initialize jobPool caller set_finishedLabel initial_state].
  by rewrite (contents_empty_buffer _ capacity_256_pos).
Qed.

(** X7. In every run of the initialised system, each submitted job is
    exactly one of: run, held by a worker about to run it, queued, or
    still to be pushed. So once the system is idle, the calls made are,
    up to their order, those of the submitted jobs, each job having run
    exactly once. *)
Theorem every_job_runs_once (numCores : Z) (evs : list Event) :
  Forall valid_event evs ->
  observe ran_by evs (Initialize numCores initial_state)
    ++ about_to_run (workers (run evs (Initialize numCores initial_state)))
    ++ contents jobPool_capacity (jobPool (run evs (Initialize numCores initial_state)))
    ++ caller_jobs (caller (run evs (Initialize numCores initial_state)))
  ≡ₚ observe submitted_by evs (Initialize numCores initial_state) /\
  (idle (run evs (Initialize numCores initial_state)) ->
   effects (run evs (Initialize numCores initial_state))
   ≡ₚ mjoin (run_job <$> observe submitted_by evs (Initialize numCores initial_state))).
Proof.
  intros Hv. pose proof (accounting_run numCores evs Hv) as Hacc.
  pose proof (effects_run evs (Initialize numCores initial_state)) as Heff.
  change (effects (Initialize numCores initial_state)) with (@nil Effect) in Heff.
  cbn [app] in Heff. split; [done|].
  intros (Hjobs & Hq & Hw). rewrite Heff, <- Hacc.
  rewrite (about_to_run_idle _ Hw), Hq, Hjobs, !app_nil_r. done.
Qed.

(** X8. [Dispatch(jobCount, groupSize, f)] called on the initialised
    system and followed by any turns of the threads that leave the
    system idle: the calls made are, up to their order, [f] on every
    index of [0, jobCount) once, with [groupIndex = index / groupSize],
    when [groupSize > 0] and [jobCount + groupSize - 1] fits 32 bits,
    and none otherwise. *)
Theorem Dispatch_runs_every_index_once
    (numCores jobCount groupSize : Z) (f : nat) (evs : list Event) :
  is_uint32 jobCount -> is_uint32 groupSize -> Forall is_turn evs ->
  idle (run (CallDispatch jobCount groupSize f :: evs)
            (Initialize numCores initial_state)) ->
  effects (run (CallDispatch jobCount groupSize f :: evs)
               (Initialize numCores initial_state))
  ≡ₚ if (0 <? groupSize) && (jobCount + groupSize - 1 <? 2 ^ 32)
     then (fun i => InvokedRanged f (mkArgs i (i / groupSize))) <$> seqZ 0 jobCount
     else [].
Proof.
  intros Hjc Hgs Hturns Hidle.
  assert (Forall valid_event (CallDispatch jobCount groupSize f :: evs)) as Hv.
  { constructor; [done|by apply valid_turns]. }
  pose proof (accounting_run numCores _ Hv) as Hacc.
  pose proof (effects_run (CallDispatch jobCount groupSize f :: evs)
                          (Initialize numCores initial_state)) as Heff.
  change (effects (Initialize numCores initial_state)) with (@nil Effect) in Heff.
  cbn [app] in Heff. destruct Hidle as (Hjobs & Hq & Hw).
  rewrite (about_to_run_idle _ Hw), Hq, Hjobs, !app_nil_r in Hacc.
  rewrite Heff, Hacc. cbn [observe].
  rewrite observe_submitted_turns, app_nil_r by done.
  change (submitted_by (Initialize numCores initial_state)
                       (CallDispatch jobCount groupSize f))
    with (Dispatch_jobs jobCount groupSize f).
  by rewrite Dispatch_calls_total.
Qed.

(** X9. When a call of [Wait()] returns in a run of the initialised
    system, and [finishedLabel] plus the outstanding jobs is below
    [2^64] there, the system is idle and the calls made are, up to
    their order, those of all the jobs submitted before, each job
    having run exactly once. *)
Theorem after_Wait_every_job_has_run (numCores : Z) (evs : list Event) :
  Forall valid_event evs ->
  caller (run evs (Initialize numCores initial_state)) = InWait ->
  caller (run (evs ++ [CallerStep]) (Initialize numCores initial_state)) = Outside ->
  finishedLabel (run evs (Initialize numCores initial_state))
    + outstanding (run evs (Initialize numCores initial_state)) < 2 ^ 64 ->
  idle (run (evs ++ [CallerStep]) (Initialize numCores initial_state)) /\
  effects (run (evs ++ [CallerStep]) (Initialize numCores initial_state))
  ≡ₚ mjoin (run_job <$> observe submitted_by evs (Initialize numCores initial_state)).
Proof.
  intros Hv. rewrite run_app.
  pose proof (label_inv_run evs _ Hv (label_inv_initial numCores)) as Hinv.
  pose proof (accounting_run numCores evs Hv) as Hacc.
  pose proof (effects_run evs (Initialize numCores initial_state)) as Heff.
  change (effects (Initialize numCores initial_state)) with (@nil Effect) in Heff.
  cbn [app] in Heff. revert Hinv Hacc Heff.
  generalize (observe ran_by evs (Initialize numCores initial_state)).
  generalize (observe submitted_by evs (Initialize numCores initial_state)).
  generalize (run evs (Initialize numCores initial_state)).
  intros s submitted ran (Hc & Hf & _ & _ & Heq) Hacc Heff Hwait Hret Hsmall.
  change (run [CallerStep] s) with (caller_step s) in Hret |- *.
  unfold caller_step in Hret |- *. rewrite Hwait in Hret |- *.
  unfold IsBusy in Hret |- *.
  destruct (Z.ltb_spec (finishedLabel s) (currentLabel s)) as [Hbusy|Hdone].
  { exfalso. cbn [poll notify_one caller set_workers] in Hret. congruence. }
  assert (0 <= outstanding s) as Hout.
  { rewrite outstanding_eq. unfold busy_count. lia. }
  unfold wrap64 in Heq. rewrite Z.mod_small in Heq by lia.
  assert (idle s) as (Hjobs & Hq & Hw) by (apply outstanding_zero; lia).
  split; [by split_and!|].
  cbn [effects set_caller]. rewrite Heff, <- Hacc.
  rewrite (about_to_run_idle _ Hw), Hq, Hjobs, !app_nil_r. done.
Qed.

End ExactlyOnce.

Section Backpressure.

Lemma wake_one_keeps (ws : list Worker) (i : nat) (w : Worker) :
  ws !! i = Some w -> pc w <> Asleep -> wake_one ws !! i = Some w.
Proof.
  revert i. induction ws as [|[p0 j0] ws IH]; intros i Hi Hpc; [done|].
  destruct i as [|i]; simpl in Hi |- *.
  - injection Hi as <-. simpl in Hpc. by destruct p0.
  - destruct p0; simpl; auto.
Qed.

(** X10. [Execute] on a full queue: a turn of its push loop leaves the
    queue, the labels and the calls made as they were and stays in the
    loop, so the job is neither dropped nor written over a queued one;
    and as soon as a worker has taken the oldest job, the next turn
    pushes the job behind the remaining ones and [Execute] returns. *)
Theorem Execute_waits_for_room (s : State) (job : Job) (i : nat) (w : Worker) :
  wf jobPool_capacity (jobPool s) ->
  caller s = InExecute job ->
  (head (jobPool s) + 1) mod jobPool_capacity = tail (jobPool s) ->
  workers s !! i = Some w -> pc w = AtPop ->
  (jobPool (caller_step s) = jobPool s /\
   caller (caller_step s) = InExecute job /\
   currentLabel (caller_step s) = currentLabel s /\
   finishedLabel (caller_step s) = finishedLabel s /\
   effects (caller_step s) = effects s) /\
  (caller (run [WorkerStep i; CallerStep] s) = Outside /\
   contents jobPool_capacity (jobPool (run [WorkerStep i; CallerStep] s))
   = tl (contents jobPool_capacity (jobPool s)) ++ [job] /\
   (run [WorkerStep i; CallerStep] s).(workers) !! i
   = Some (mkWorker AtCall (hd job (contents jobPool_capacity (jobPool s))))).
Proof.
  intros Hwf Hcal Hfull Hi Hpc. split.
  - unfold caller_step. rewrite Hcal, push_back_false by done. done.
  - destruct w as [p j]. simpl in Hpc. subst p.
    pose proof Hwf as (Hh & Ht & Hlen).
    assert (tail (jobPool s) <> head (jobPool s)) as Hne.
    { intros Heq. rewrite <- Heq in Hfull. unfold jobPool_capacity in *.
      rewrite next_index in Hfull by lia. case_decide; lia. }
    pose proof (contents_pop_front _ capacity_256_pos j _ Hwf Hne) as Hcont.
    pose proof (wf_pop_front _ capacity_256_pos j _ Hwf) as Hwf'.
    rewrite pop_front_true in Hcont, Hwf' by done. cbn [fst snd] in Hcont, Hwf'.
    set (item := default j (data (jobPool s) !! Z.to_nat (tail (jobPool s)))) in *.
    set (q' := mkRingBuffer (data (jobPool s)) (head (jobPool s))
                            ((tail (jobPool s) + 1) mod jobPool_capacity)) in *.
    assert (worker_step i s
            = set_workers (<[i := mkWorker AtCall item]> (workers s)) (set_jobPool q' s))
      as Hstep1.
    { unfold worker_step. rewrite Hi. cbn [pc job_var].
      by rewrite pop_front_true by done. }
    assert ((head q' + 1) mod jobPool_capacity <> tail q') as Hroom.
    { subst q'. cbn [head tail]. rewrite Hfull. unfold jobPool_capacity in *.
      rewrite next_index by lia. case_decide; lia. }
    pose proof (contents_push_back _ capacity_256_pos job q' Hwf' Hroom) as Hcont'.
    unfold run. cbn [fold_left step]. rewrite Hstep1.
    unfold caller_step. cbn [caller set_workers set_jobPool jobPool]. rewrite Hcal.
    rewrite push_back_true in Hcont' |- * by done. cbn [snd] in Hcont'.
    cbn [notify_one set_workers set_caller set_jobPool caller jobPool workers].
    rewrite Hcont', Hcont. cbn [tl hd]. split_and!; try done.
    assert (<[i := mkWorker AtCall item]> (workers s) !! i
            = Some (mkWorker AtCall item)) as Hi'.
    { apply list_lookup_insert_eq. by apply lookup_lt_Some in Hi. }
    by apply wake_one_keeps.
Qed.

(** X11. When [jobCount + groupSize - 1] fits 32 bits, every closure
    built by [Dispatch] calls [job] at least once and at most
    [groupSize] times: each group but the last has exactly [groupSize]
    indices, and the last has the remaining
    [jobCount - (groupCount - 1) * groupSize]. *)
Theorem Dispatch_group_sizes (jobCount groupSize : Z) (job : nat) (gi : Z) :
  0 < jobCount -> 0 < groupSize -> jobCount + groupSize - 1 < 2 ^ 32 ->
  0 <= gi < groupCount_of jobCount groupSize ->
  1 <= Z.of_nat (length (run_job (JobGroup jobCount groupSize job gi))) <= groupSize /\
  (gi < groupCount_of jobCount groupSize - 1 ->
   Z.of_nat (length (run_job (JobGroup jobCount groupSize job gi))) = groupSize) /\
  (gi = groupCount_of jobCount groupSize - 1 ->
   Z.of_nat (length (run_job (JobGroup jobCount groupSize job gi)))
   = jobCount - (groupCount_of jobCount groupSize - 1) * groupSize).
Proof.
  intros Hj Hg Hsum Hgi.
  destruct (groupCount_of_ceiling jobCount groupSize Hj Hg Hsum) as [_ Hceil].
  cbn [run_job]. rewrite jobGroup_body_range by done.
  rewrite length_fmap, length_seqZ.
  assert (0 <= gi * groupSize < jobCount) as Hoff by nia.
  split_and!.
  - lia.
  - lia.
  - intros Hlt. rewrite Z.min_l by nia. lia.
  - intros ->. rewrite Z.min_r by nia. lia.
Qed.

End Backpressure.

(** ** The properties above at sample runs *)

Lemma no_empty_function_called_witness :
  Forall callable_event [CallExecute (Closure 1); CallerStep; WorkerStep 0] /\
  workers (run [CallExecute (Closure 1); CallerStep; WorkerStep 0]
               (Initialize 1 initial_state)) !! 0%nat
  = Some (mkWorker AtCall (Closure 1)) /\
  Closure 1 <> EmptyFunction.
Proof.
  assert (Forall callable_event [CallExecute (Closure 1); CallerStep; WorkerStep 0])
    as Hev by (repeat constructor; done).
  assert (workers (run [CallExecute (Closure 1); CallerStep; WorkerStep 0]
                       (Initialize 1 initial_state)) !! 0%nat
          = Some (mkWorker AtCall (Closure 1))) as Hw by reflexivity.
  split_and!; [exact Hev|exact Hw|].
  exact (no_empty_function_called 1 _ 0 _ Hev Hw eq_refl).
Defined.

Lemma jobs_taken_in_submission_order_witness :
  Forall valid_event sample_schedule /\
  observe submitted_by sample_schedule (Initialize 2 initial_state)
  = [Closure 1; JobGroup 10 3 7 0; JobGroup 10 3 7 1;
     JobGroup 10 3 7 2; JobGroup 10 3 7 3] /\
  observe taken_by sample_schedule (Initialize 2 initial_state)
  = [Closure 1; JobGroup 10 3 7 0] /\
  observe submitted_by sample_schedule (Initialize 2 initial_state)
  = observe taken_by sample_schedule (Initialize 2 initial_state)
    ++ contents jobPool_capacity
         (jobPool (run sample_schedule (Initialize 2 initial_state)))
    ++ caller_jobs (caller (run sample_schedule (Initialize 2 initial_state))).
Proof.
  assert (Forall valid_event sample_schedule) as Hv.
  { repeat constructor; unfold is_uint32; lia. }
  split_and!; [exact Hv|reflexivity|reflexivity|].
  exact (jobs_taken_in_submission_order 2 sample_schedule Hv).
Defined.

Lemma every_job_runs_once_witness :
  Forall valid_event
    [CallExecute (Closure 1); CallerStep; CallExecute (Closure 2); CallerStep;
     WorkerStep 0; WorkerStep 1; WorkerStep 1; WorkerStep 1;
     WorkerStep 0; WorkerStep 0] /\
  idle (run [CallExecute (Closure 1); CallerStep; CallExecute (Closure 2); CallerStep;
             WorkerStep 0; WorkerStep 1; WorkerStep 1; WorkerStep 1;
             WorkerStep 0; WorkerStep 0]
            (Initialize 2 initial_state)) /\
  effects (run [CallExecute (Closure 1); CallerStep; CallExecute (Closure 2); CallerStep;
                WorkerStep 0; WorkerStep 1; WorkerStep 1; WorkerStep 1;
                WorkerStep 0; WorkerStep 0]
               (Initialize 2 initial_state))
  = [Invoked 2; Invoked 1] /\
  effects (run [CallExecute (Closure 1); CallerStep; CallExecute (Closure 2); CallerStep;
                WorkerStep 0; WorkerStep 1; WorkerStep 1; WorkerStep 1;
                WorkerStep 0; WorkerStep 0]
               (Initialize 2 initial_state))
  ≡ₚ [Invoked 1; Invoked 2].
Proof.
  assert (Forall valid_event
            [CallExecute (Closure 1); CallerStep; CallExecute (Closure 2); CallerStep;
             WorkerStep 0; WorkerStep 1; WorkerStep 1; WorkerStep 1;
             WorkerStep 0; WorkerStep 0]) as Hv by (repeat constructor).
  assert (idle (run [CallExecute (Closure 1); CallerStep; CallExecute (Closure 2);
                     CallerStep; WorkerStep 0; WorkerStep 1; WorkerStep 1; WorkerStep 1;
                     WorkerStep 0; WorkerStep 0]
                    (Initialize 2 initial_state))) as Hidle.
  { split_and!; [vm_compute; reflexivity|vm_compute; reflexivity|].
    vm_compute. repeat constructor. }
  split_and!; [exact Hv|exact Hidle|vm_compute; reflexivity|].
  exact (proj2 (every_job_runs_once 2 _ Hv) Hidle).
Defined.

Lemma Dispatch_runs_every_index_once_witness :
  is_uint32 10 /\ is_uint32 3 /\
  Forall is_turn (replicate 5 CallerStep ++ replicate 12 (WorkerStep 0)) /\
  idle (run (CallDispatch 10 3 7 :: replicate 5 CallerStep ++ replicate 12 (WorkerStep 0))
            (Initialize 1 initial_state)) /\
  effects (run (CallDispatch 10 3 7
                  :: replicate 5 CallerStep ++ replicate 12 (WorkerStep 0))
               (Initialize 1 initial_state))
  ≡ₚ (fun i => InvokedRanged 7 (mkArgs i (i / 3))) <$> seqZ 0 10.
Proof.
  assert (is_uint32 10) as H10 by (unfold is_uint32; lia).
  assert (is_uint32 3) as H3 by (unfold is_uint32; lia).
  assert (Forall is_turn (replicate 5 CallerStep ++ replicate 12 (WorkerStep 0)))
    as Ht by (repeat constructor).
  assert (idle (run (CallDispatch 10 3 7
                       :: replicate 5 CallerStep ++ replicate 12 (WorkerStep 0))
                    (Initialize 1 initial_state))) as Hidle.
  { split_and!; [vm_compute; reflexivity|vm_compute; reflexivity|].
    vm_compute. repeat constructor. }
  split; [exact H10|]. split; [exact H3|]. split; [exact Ht|]. split; [exact Hidle|].
  pose proof (Dispatch_runs_every_index_once 1 10 3 7 _ H10 H3 Ht Hidle) as H.
  change ((0 <? 3) && (10 + 3 - 1 <? 2 ^ 32)) with true in H. cbv iota in H.
  exact H.
Defined.

Lemma after_Wait_every_job_has_run_witness :
  Forall valid_event
    [CallExecute (Closure 1); CallerStep; CallWait; CallerStep;
     WorkerStep 0; WorkerStep 0; WorkerStep 0] /\
  caller (run [CallExecute (Closure 1); CallerStep; CallWait; CallerStep;
               WorkerStep 0; WorkerStep 0; WorkerStep 0]
              (Initialize 1 initial_state)) = InWait /\
  effects (run ([CallExecute (Closure 1); CallerStep; CallWait; CallerStep;
                 WorkerStep 0; WorkerStep 0; WorkerStep 0] ++ [CallerStep])
               (Initialize 1 initial_state))
  ≡ₚ [Invoked 1].
Proof.
  assert (Forall valid_event
            [CallExecute (Closure 1); CallerStep; CallWait; CallerStep;
             WorkerStep 0; WorkerStep 0; WorkerStep 0]) as Hv
    by (repeat constructor).
  split_and!; [exact Hv|reflexivity|].
  apply (after_Wait_every_job_has_run 1 _ Hv); [reflexivity|reflexivity|].
  vm_compute. reflexivity.
Defined.

Lemma Execute_waits_for_room_witness :
  wf jobPool_capacity
     (jobPool (run (mjoin (replicate 255 [CallExecute (Closure 1); CallerStep])
                      ++ [CallExecute (Closure 9)])
                   (Initialize 1 initial_state))) /\
  caller (run (mjoin (replicate 255 [CallExecute (Closure 1); CallerStep])
                 ++ [CallExecute (Closure 9)])
              (Initialize 1 initial_state)) = InExecute (Closure 9) /\
  caller (caller_step
            (run (mjoin (replicate 255 [CallExecute (Closure 1); CallerStep])
                    ++ [CallExecute (Closure 9)])
                 (Initialize 1 initial_state))) = InExecute (Closure 9) /\
  caller (run [WorkerStep 0; CallerStep]
            (run (mjoin (replicate 255 [CallExecute (Closure 1); CallerStep])
                    ++ [CallExecute (Closure 9)])
                 (Initialize 1 initial_state))) = Outside.
Proof.
  assert (wf jobPool_capacity
            (jobPool (run (mjoin (replicate 255 [CallExecute (Closure 1); CallerStep])
                             ++ [CallExecute (Closure 9)])
                          (Initialize 1 initial_state)))) as Hwf.
  { apply wf_jobPool_run, (wf_empty_buffer _ capacity_256_pos). }
  assert (caller (run (mjoin (replicate 255 [CallExecute (Closure 1); CallerStep])
                         ++ [CallExecute (Closure 9)])
                      (Initialize 1 initial_state)) = InExecute (Closure 9)) as Hcal
    by (vm_compute; reflexivity).
  destruct (Execute_waits_for_room _ (Closure 9) 0
              (mkWorker AtPop EmptyFunction) Hwf Hcal)
    as ((_ & Hstay & _) & (Hret & _)).
  - vm_compute. reflexivity.
  - vm_compute. reflexivity.
  - reflexivity.
  - split_and!; [exact Hwf|exact Hcal|exact Hstay|exact Hret].
Defined.

Lemma Dispatch_group_sizes_witness :
  0 < 10 /\ 0 < 3 /\ 10 + 3 - 1 < 2 ^ 32 /\ 0 <= 3 < groupCount_of 10 3 /\
  Z.of_nat (length (run_job (JobGroup 10 3 7 3))) = 10 - (groupCount_of 10 3 - 1) * 3.
Proof.
  assert (0 <= 3 < groupCount_of 10 3) as Hgi by (vm_compute; split; congruence).
  split_and!; try lia.
  apply (Dispatch_group_sizes 10 3 7 3); try lia. reflexivity.
Defined.

(** ** The labels count the submitted and the finished jobs *)

Section LabelsCount.

Lemma submitted_by_turn (s : State) (e : Event) :
  is_turn e -> submitted_by s e = [].
Proof. intros He. unfold submitted_by. destruct e; try done; by destruct (caller s). Qed.

(** One step either does not touch [finishedLabel], and the workers that
    hold a job are joined by the one that takes a job, if any; or it is
    a worker's [fetch_add], and that worker holds its job no longer. *)
Lemma busy_step (s : State) (e : Event) :
  (finishedLabel (step s e) = finishedLabel s /\
   busy_count (workers (step s e))
   = busy_count (workers s) + Z.of_nat (length (taken_by s e))) \/
  (finishedLabel (step s e) = wrap64 (finishedLabel s + 1) /\
   busy_count (workers (step s e)) = busy_count (workers s) - 1 /\
   taken_by s e = [] /\ submitted_by s e = [] /\
   1 <= busy_count (workers s)).
Proof.
  destruct e as [job|jc gs job| | |i]; cbn [step taken_by length].
  - left. rewrite Z.add_0_r. by destruct (caller s).
  - left. rewrite Z.add_0_r. destruct (caller s); try done.
    by destruct (jobPool_Dispatch_enter jc gs job s) as (_ & -> & _ & ->).
  - left. rewrite Z.add_0_r. by destruct (caller s).
  - left. rewrite Z.add_0_r. split.
    + destruct (caller_step_cases s)
        as [[->| ->]|[(job & rest & c' & _ & _ & _ & _ & ->)|[_ ->]]]; done.
    + destruct (workers_caller_step s) as [-> | ->]; [done|apply busy_count_wake_one].
  - unfold worker_step. destruct (workers s !! i) as [[p j]|] eqn:Hi.
    2:{ left. simpl. lia. }
    destruct p; cbn [pc job_var].
    + left. destruct (decide (tail (jobPool s) = head (jobPool s))) as [He|Hne].
      * rewrite pop_front_false by done. cbn [finishedLabel workers set_workers length].
        rewrite (busy_count_insert _ _ _ _ Hi). simpl. split; [done|lia].
      * rewrite pop_front_true by done.
        cbn [finishedLabel workers set_workers set_jobPool length].
        rewrite (busy_count_insert _ _ _ _ Hi). simpl. split; [done|lia].
    + left. cbn [finishedLabel workers set_workers length].
      rewrite (busy_count_insert _ _ _ _ Hi). simpl. split; [done|lia].
    + left. cbn [finishedLabel workers set_workers set_effects length].
      rewrite (busy_count_insert _ _ _ _ Hi). simpl. split; [done|lia].
    + right. cbn [finishedLabel workers set_workers set_finishedLabel].
      assert (0 <= busy_count (<[i:=mkWorker AtPop j]> (workers s))) as Hpos
        by (unfold busy_count; lia).
      rewrite (busy_count_insert _ _ _ _ Hi) in Hpos |- *. simpl in Hpos |- *.
      split_and!; try done; try lia. by apply submitted_by_turn.
Qed.

(** One step: the outstanding jobs grow by the jobs the step submits, or
    shrink by the one job a [fetch_add] counts as finished. *)
Lemma outstanding_step (s : State) (e : Event) :
  wf jobPool_capacity (jobPool s) -> caller_ok (caller s) ->
  (finishedLabel (step s e) = finishedLabel s /\
   outstanding (step s e)
   = outstanding s + Z.of_nat (length (submitted_by s e))) \/
  (finishedLabel (step s e) = wrap64 (finishedLabel s + 1) /\
   outstanding (step s e) = outstanding s - 1 /\
   submitted_by s e = [] /\ 1 <= outstanding s).
Proof.
  intros Hwf Hok. pose proof (handoff_step s e Hwf Hok) as Hh.
  apply (f_equal (fun l => Z.of_nat (length l))) in Hh.
  rewrite !length_app in Hh. rewrite !outstanding_eq.
  destruct (busy_step s e) as [[Hf Hb]|(Hf & Hb & Ht & Hs & Hone)].
  - left. split; [done|]. rewrite Hb. lia.
  - right. rewrite Ht, Hs in Hh. simpl in Hh. split_and!; try done; lia.
Qed.

(** With [n] jobs submitted before and [finishedLabel] counting those of
    them that are not outstanding, the same holds after any run, [n]
    growing by what the run submits. *)
Lemma finished_counts_run (evs : list Event) (s : State) (n : Z) :
  Forall valid_event evs -> label_inv s ->
  0 <= outstanding s <= n ->
  finishedLabel s = wrap64 (n - outstanding s) ->
  0 <= outstanding (run evs s)
    <= n + Z.of_nat (length (observe submitted_by evs s)) /\
  finishedLabel (run evs s)
  = wrap64 (n + Z.of_nat (length (observe submitted_by evs s))
            - outstanding (run evs s)).
Proof.
  revert s n. induction evs as [|e evs IH]; intros s n Hv Hinv Hout Hfin.
  - simpl. rewrite Z.add_0_r. split; [lia|done].
  - apply Forall_cons in Hv as [He Hv].
    pose proof (label_inv_step s e He Hinv) as Hinv'.
    pose proof Hinv as (_ & Hf & Hwf & Hok & _).
    cbn [run fold_left observe]. rewrite length_app, Nat2Z.inj_add, Z.add_assoc.
    change (fold_left step evs (step s e)) with (run evs (step s e)).
    destruct (outstanding_step s e Hwf Hok) as [[Hf' Ho']|(Hf' & Ho' & Hs & Hone)].
    + apply IH; [done|done|lia|]. rewrite Hf', Ho', Hfin. f_equal. lia.
    + rewrite Hs. simpl length. rewrite Z.add_0_r.
      apply IH; [done|done|lia|]. rewrite Hf', Ho', Hfin, wrap64_add_l. f_equal. lia.
Qed.

(** The outstanding jobs of a reachable state are far fewer than
    [2^64]: at most [2^32] closures of a [Dispatch] still to push, fewer
    than 256 queued, and at most one per worker. *)
Lemma outstanding_small (numCores : Z) (evs : list Event) :
  is_uint32 numCores -> Forall valid_event evs ->
  0 <= outstanding (run evs (Initialize numCores initial_state)) < 2 ^ 64.
Proof.
  intros Hn Hv. unfold is_uint32 in Hn.
  pose proof (label_inv_run evs _ Hv (label_inv_initial numCores))
    as (_ & _ & Hwf & Hok & _).
  destruct (pool_run evs (Initialize numCores initial_state)) as [Hlen _].
  cbn [Initialize workers set_finishedLabel initial_state app] in Hlen.
  rewrite length_replicate in Hlen.
  rewrite outstanding_eq. revert Hwf Hok Hlen.
  generalize (run evs (Initialize numCores initial_state)). intros s Hwf Hok Hlen.
  pose proof (length_contents _ capacity_256_pos _ Hwf) as Hc.
  pose proof (count_range _ capacity_256_pos (jobPool s)) as Hcount.
  unfold jobPool_capacity in Hcount.
  assert (0 <= busy_count (workers s) <= Z.max 1 numCores) as Hbusy.
  { unfold busy_count.
    pose proof (length_filter (fun w => holds_job w = true) (workers s)). lia. }
  assert (Z.of_nat (length (caller_jobs (caller s))) <= 2 ^ 32) as Hjobs.
  { destruct (caller s) as [|job|jc gs job gc gi|]; try (simpl; lia).
    rewrite length_caller_jobs_InDispatch. destruct Hok. lia. }
  unfold jobPool_capacity in *. lia.
Qed.

(** C7. In every state reached from the initialised system by any
    interleaving of calls of [Execute], [Dispatch] and [Wait], turns of
    the submitting thread and turns of the workers: the labels are equal
    exactly when no submitted job is waiting to be pushed, queued or
    held by a worker; and, fewer than [2^64] jobs having been submitted,
    [finishedLabel <= currentLabel], [currentLabel] is the number of
    jobs submitted and the difference of the labels is the number of
    submitted jobs not yet counted as finished. *)
Theorem completed_le_submitted (numCores : Z) (evs : list Event) :
  is_uint32 numCores -> Forall valid_event evs ->
  (finishedLabel (run evs (Initialize numCores initial_state))
     = currentLabel (run evs (Initialize numCores initial_state))
   <-> idle (run evs (Initialize numCores initial_state))) /\
  (Z.of_nat (length (observe submitted_by evs (Initialize numCores initial_state)))
     < 2 ^ 64 ->
   finishedLabel (run evs (Initialize numCores initial_state))
     <= currentLabel (run evs (Initialize numCores initial_state)) /\
   currentLabel (run evs (Initialize numCores initial_state))
     = Z.of_nat (length (observe submitted_by evs (Initialize numCores initial_state))) /\
   currentLabel (run evs (Initialize numCores initial_state))
     - finishedLabel (run evs (Initialize numCores initial_state))
     = outstanding (run evs (Initialize numCores initial_state))).
Proof.
  intros Hn Hv.
  pose proof (outstanding_small numCores evs Hn Hv) as Hsmall.
  pose proof (label_inv_run evs _ Hv (label_inv_initial numCores))
    as (Hc & Hf & _ & _ & Heq).
  assert (outstanding (Initialize numCores initial_state) = 0) as H0.
  { apply outstanding_zero. split_and!.
    - done.
    - apply (contents_empty_buffer _ capacity_256_pos).
    - cbn [Initialize workers set_finishedLabel initial_state app].
      by apply Forall_replicate. }
  pose proof (finished_counts_run evs (Initialize numCores initial_state) 0 Hv
                (label_inv_initial numCores)) as Hcount.
  rewrite H0 in Hcount. specialize (Hcount ltac:(lia) eq_refl).
  rewrite Z.add_0_l in Hcount. destruct Hcount as [Hle Hfin].
  revert Hsmall Hc Hf Heq Hle Hfin.
  generalize (Z.of_nat (length (observe submitted_by evs
                                   (Initialize numCores initial_state)))).
  generalize (run evs (Initialize numCores initial_state)).
  intros s n Hsmall Hc Hf Heq Hle Hfin. unfold wrap64 in *. split.
  - rewrite <- outstanding_zero. split.
    + intros Hsame. rewrite <- Hsame in Heq.
      destruct (decide (finishedLabel s + outstanding s < 2 ^ 64)) as [Hlt|Hge].
      * rewrite Z.mod_small in Heq by lia. lia.
      * assert ((finishedLabel s + outstanding s) mod 2 ^ 64
                = finishedLabel s + outstanding s - 2 ^ 64) as Hmod
          by (symmetry; apply (Z.mod_unique_pos _ _ 1); lia).
        lia.
    + intros Hidle. rewrite Hidle, Z.add_0_r in Heq.
      rewrite Z.mod_small in Heq by lia. lia.
  - intros Hn64. rewrite Z.mod_small in Hfin by lia.
    rewrite Hfin in Heq |- *.
    replace (n - outstanding s + outstanding s) with n in Heq by lia.
    rewrite Z.mod_small in Heq by lia. lia.
Qed.

End LabelsCount.

Lemma completed_le_submitted_witness :
  is_uint32 2 /\
  Forall valid_event sample_schedule /\
  Z.of_nat (length (observe submitted_by sample_schedule (Initialize 2 initial_state)))
    = 5 /\
  currentLabel (run sample_schedule (Initialize 2 initial_state)) = 5 /\
  finishedLabel (run sample_schedule (Initialize 2 initial_state)) = 1 /\
  outstanding (run sample_schedule (Initialize 2 initial_state)) = 4 /\
  finishedLabel (run sample_schedule (Initialize 2 initial_state))
    <= currentLabel (run sample_schedule (Initialize 2 initial_state)).
Proof.
  assert (is_uint32 2) as Hn by (unfold is_uint32; lia).
  assert (Forall valid_event sample_schedule) as Hv.
  { repeat constructor; unfold is_uint32; lia. }
  split_and!; [exact Hn|exact Hv|vm_compute; reflexivity..|].
  destruct (completed_le_submitted 2 sample_schedule Hn Hv) as [_ Hlabels].
  apply Hlabels. vm_compute. reflexivity.
Defined.
